(** * Wildlife-Mlops: inference, monitoring and training control flow

    A shallow embedding of
    - [src/inference/predictor.py]  (class [Predictor]),
    - [src/monitoring/monitor.py]   (classes [PredictionLogger], [ModelMonitor]),
    - [src/training/trainer.py]     (classes [WildlifeModel], [Trainer]),
    followed by the properties the specification states about them.

    Conventions.
    - Python floats are modelled by the canonical rationals [Qc]: exact
      arithmetic, Leibniz equality, a total order, no NaN and no infinity.
    - Python dicts with string keys are [gmap string value].
    - A Python call that may raise returns a [result]; [try]/[except Exception]
      is a match on it.
    - The deep-learning framework, PIL, the file system and the clock are not
      code of the repository: they are Section variables (model, image
      decoding, softmax, the metrics of a training epoch) or small reference
      definitions of the library calls ([torch.max], [torch.topk], [np.mean],
      pathlib's [suffix] and [rglob]). Logging to mlflow, printing and the
      learning-rate scheduler do not bear on the control flow and are left
      out. *)

From Stdlib Require Import QArith Qcanon Ascii String.
From stdpp Require Import base numbers list strings gmap pretty sorting.

Close Scope Qc_scope.
Close Scope Q_scope.

Set Default Proof Using "Type".
Set Warnings "-register-all".

(** ** Exceptions and fallible computations *)

Inductive exn : Type :=
| RuntimeError (msg : string)
| KeyError (key : string)
| TypeError (msg : string)
| IndexError (msg : string)
| ValueError (msg : string)
| ZeroDivisionError (msg : string)
| ExternalError (msg : string).

(** [str(e)] *)
Definition str (e : exn) : string :=
  match e with
  | RuntimeError msg | TypeError msg | IndexError msg | ValueError msg
  | ZeroDivisionError msg | ExternalError msg => msg
  | KeyError key => key
  end.

Inductive result (A : Type) : Type :=
| Ok (a : A)
| Raise (e : exn).
Arguments Ok {A} a.
Arguments Raise {A} e.

Global Instance result_bind : MBind result := λ A B k r,
  match r with
  | Ok a => k a
  | Raise e => Raise e
  end.

Fixpoint mapM {A B} (f : A → result B) (l : list A) : result (list B) :=
  match l with
  | [] => Ok []
  | a :: l' => b ← f a; bs ← mapM f l'; Ok (b :: bs)
  end.

(** ** Floats as canonical rationals *)

Definition Qcltb (x y : Qc) : bool :=
  match (x ?= y)%Qc with Lt => true | _ => false end.

Definition Qceqb (x y : Qc) : bool :=
  match (x ?= y)%Qc with Eq => true | _ => false end.

Definition Qcleb (x y : Qc) : bool :=
  match (x ?= y)%Qc with Gt => false | _ => true end.

Definition Qc_of_nat (n : nat) : Qc := Qc_of_Z (Z.of_nat n).

(** The float written [a/b], for concrete inputs. *)
Definition ratio (a : Z) (b : positive) : Qc := Q2Qc (a # b).

Definition Qcsum (l : list Qc) : Qc := foldr Qcplus 0%Qc l.

(** ** JSON-like values and dicts *)

Inductive value : Type :=
| VNone
| VStr (s : string)
| VNum (q : Qc)
| VBool (b : bool)
| VTop (l : list (string * Qc)).

Global Instance value_eq_dec : EqDecision value.
Proof. solve_decision. Defined.

Abbreviation Dict := (gmap string value).

(** [d[key]] with the [KeyError] of a missing key. *)
Definition getitem (d : Dict) (key : string) : result value :=
  match d !! key with
  | Some v => Ok v
  | None => Raise (KeyError key)
  end.

(** [key in d] *)
Definition contains (d : Dict) (key : string) : bool :=
  bool_decide (is_Some (d !! key)).

(** The truth value of an object in a condition. *)
Definition truthy (v : value) : bool :=
  match v with
  | VNone => false
  | VStr s => negb (String.eqb s "")
  | VNum q => negb (Qceqb q 0)
  | VBool b => b
  | VTop l => match l with [] => false | _ :: _ => true end
  end.

(** A dict key that is used as a species label. *)
Definition as_str (v : value) : result string :=
  match v with
  | VStr s => Ok s
  | _ => Raise (TypeError "expected str")
  end.

(** A value in an arithmetic context; [bool] is a subtype of [int]. *)
Definition as_float (v : value) : result Qc :=
  match v with
  | VNum q => Ok q
  | VBool b => Ok (if b then 1%Qc else 0%Qc)
  | _ => Raise (TypeError "unsupported operand type")
  end.

(** [a / b] *)
Definition truediv (a b : Qc) : result Qc :=
  if Qceqb b 0 then Raise (ZeroDivisionError "division by zero")
  else Ok (a / b)%Qc.

(** [for x in l: acc = f(acc, x)] where the body may raise. *)
Fixpoint foldlM {A B} (f : B → A → result B) (acc : B) (l : list A) : result B :=
  match l with
  | [] => Ok acc
  | a :: l' => acc' ← f acc a; foldlM f acc' l'
  end.

(** [[x for x in l if c(x)]] where the condition may raise. *)
Fixpoint filterM {A} (c : A → result bool) (l : list A) : result (list A) :=
  match l with
  | [] => Ok []
  | a :: l' =>
      b ← c a; r ← filterM c l'; Ok (if b : bool then a :: r else r)
  end.

(** ** Reference semantics of the tensor primitives *)

Module torch.

(** Scan of [torch.max] over one row: the running maximum and its index;
    a later element replaces it only when strictly larger, so the first
    maximal index is returned. *)
Fixpoint max_from (best : Qc) (besti i : nat) (l : list Qc) : Qc * nat :=
  match l with
  | [] => (best, besti)
  | x :: r =>
      if Qcltb best x then max_from x i (S i) r
      else max_from best besti (S i) r
  end.

(** [torch.max(row)] : (value, index); raises on an empty row. *)
Definition max (l : list Qc) : result (Qc * nat) :=
  match l with
  | [] => Raise (IndexError "max(): Expected reduction dim to have non-zero size")
  | x :: r => Ok (max_from x 0 1 r)
  end.

(** Stable insertion in a list sorted by descending value. *)
Fixpoint insert_desc (x : Qc * nat) (l : list (Qc * nat)) : list (Qc * nat) :=
  match l with
  | [] => [x]
  | y :: r => if Qcltb x.1 y.1 then y :: insert_desc x r else x :: y :: r
  end.

Definition sort_desc (l : list (Qc * nat)) : list (Qc * nat) :=
  foldr insert_desc [] l.

(** The row paired with its indices: [(l[0],0); (l[1],1); ...]. *)
Definition indexed (l : list Qc) : list (Qc * nat) :=
  zip l (seq 0 (length l)).

(** [torch.topk(row, k)] with [largest=True, sorted=True]: the [k] largest
    entries in descending order, each with its index; raises when [k]
    exceeds the row length. The framework does not say in which order equal
    entries come; this reference keeps them in index order, which is the
    order the specification assumes. *)
Definition topk (l : list Qc) (k : nat) : result (list (Qc * nat)) :=
  if decide (k ≤ length l)
  then Ok (take k (sort_desc (indexed l)))
  else Raise (RuntimeError "selected index k out of range").

End torch.

(** ** Reference semantics of the path primitives (POSIX flavour) *)

Module pathlib.

(** A directory entry: a file, or a directory with its own entries, in
    the order the file system enumerates them. *)
Inductive entry : Type :=
| File (name : string)
| Dir (name : string) (children : list entry).

Definition name (e : entry) : string :=
  match e with File n | Dir n _ => n end.

(** [str.lower] on ASCII letters. *)
Definition lower_ascii (c : Ascii.ascii) : Ascii.ascii :=
  if (Ascii.leb "A"%char c && Ascii.leb c "Z"%char)%bool
  then Ascii.ascii_of_nat (Ascii.nat_of_ascii c + 32)
  else c.

Fixpoint lower (s : string) : string :=
  match s with
  | EmptyString => EmptyString
  | String c r => String (lower_ascii c) (lower r)
  end.

(** [name.rfind('.')]; [None] stands for -1. *)
Fixpoint rfind_dot (i : nat) (s : string) (found : option nat) : option nat :=
  match s with
  | EmptyString => found
  | String c r =>
      rfind_dot (S i) r (if Ascii.eqb c "."%char then Some i else found)
  end.

(** [PurePath.suffix]: the part of the name from its last dot, when that
    dot is neither the first nor the last character. *)
Definition suffix (name : string) : string :=
  match rfind_dot 0 name None with
  | Some i =>
      if bool_decide (0 < i < String.length name - 1)
      then substring i (String.length name - i) name
      else ""
  | None => ""
  end.

(** Does [name] match the pattern [*ext]? Compared byte for byte: POSIX
    globbing is case-sensitive. *)
Definition matches_star (ext name : string) : bool :=
  bool_decide (String.length ext ≤ String.length name) &&
  String.eqb
    (substring (String.length name - String.length ext) (String.length ext) name)
    ext.

Definition join (dir name : string) : string := dir +:+ "/" +:+ name.

(** [Path(dir).glob('*')]: the entries of the directory itself. *)
Definition glob_star (dir : string) (content : list entry) : list string :=
  (λ e, join dir (name e)) <$> content.

(** The matches of [*ext] inside the entry [e] found at [path]: the
    matching entries of a directory first, then those of each of its
    subdirectories in turn; a file has nothing inside. *)
Fixpoint rglob_in (ext path : string) (e : entry) : list string :=
  match e with
  | File _ => []
  | Dir _ content =>
      ((λ c, join path (name c)) <$>
         List.filter (λ c, matches_star ext (name c)) content) ++
      (fix below (l : list entry) : list string :=
         match l with
         | [] => []
         | c :: l' => rglob_in ext (join path (name c)) c ++ below l'
         end) content
  end.

(** [Path(dir).rglob('*' + ext)] *)
Definition rglob (ext dir : string) (content : list entry) : list string :=
  rglob_in ext dir (Dir dir content).

(** The name of a path built by [join]: the part after the last slash. *)
Fixpoint basename_from (s acc : string) : string :=
  match s with
  | EmptyString => acc
  | String c r =>
      if Ascii.eqb c "/"%char then basename_from r r else basename_from r acc
  end.

Definition basename (path : string) : string := basename_from path path.

End pathlib.

(** ** [Predictor] (src/inference/predictor.py) *)


(** The fields of a prediction result, read off a dict for the statements
    below: the label, the confidence and the confidence flag when present
    with their types. *)
Definition label_of (p : Dict) : option string :=
  match p !! "predicted_species" with Some (VStr s) => Some s | _ => None end.

Definition confidence_of (p : Dict) : Qc :=
  match p !! "confidence" with Some (VNum c) => c | _ => 0%Qc end.

Definition confident_of (p : Dict) : bool :=
  match p !! "is_confident" with Some (VBool b) => b | _ => false end.

(** A dict shaped like the result of a successful prediction. *)
Definition is_prediction_result (p : Dict) : Prop :=
  ∃ s c b, p !! "predicted_species" = Some (VStr s) ∧
           p !! "confidence" = Some (VNum c) ∧
           p !! "is_confident" = Some (VBool b).

(** The number of dicts of a list that carry the label [s]. *)
Definition count_label (s : string) (l : list Dict) : nat :=
  length (filter (λ p, label_of p = Some s) l).

(** The dict returned by [Predictor.get_prediction_statistics]. *)
Record Stats : Type := mkStats {
  total_predictions : nat;
  confident_predictions : nat;
  confidence_rate : Qc;
  average_confidence : Qc;
  species_distribution : gmap string nat;
  errors : Z
}.

Definition has_error (p : Dict) : Prop := is_Some (p !! "error").

(** The body of the [for pred in valid_predictions] loop. *)
Definition count_step (acc : gmap string nat * Qc) (pred : Dict)
    : result (gmap string nat * Qc) :=
  let '(species_counts, total_confidence) := acc in
  species ← getitem pred "predicted_species" ≫= as_str;
  confidence ← getitem pred "confidence" ≫= as_float;
  Ok (<[species := default 0 (species_counts !! species) + 1]> species_counts,
      (total_confidence + confidence)%Qc).

(** [Predictor.get_prediction_statistics]; the method reads no attribute of
    [self]. *)
Definition get_prediction_statistics (predictions : list Dict) : result Stats :=
  let valid_predictions := filter (λ p, ¬ has_error p) predictions in
  confident_predictions ←
    filterM (λ p, v ← getitem p "is_confident"; Ok (truthy v)) valid_predictions;
  '(species_counts, total_confidence) ←
    foldlM count_step (∅, 0%Qc) valid_predictions;
  confidence_rate ←
    (if valid_predictions is [] then Ok 0%Qc
     else truediv (Qc_of_nat (length confident_predictions))
                  (Qc_of_nat (length valid_predictions)));
  average_confidence ←
    (if valid_predictions is [] then Ok 0%Qc
     else truediv total_confidence (Qc_of_nat (length valid_predictions)));
  Ok (mkStats (length valid_predictions) (length confident_predictions)
        confidence_rate average_confidence species_counts
        (Z.of_nat (length predictions) - Z.of_nat (length valid_predictions))).

Section Predictor.

(** External capabilities: the model class and its weights, PIL, the
    transform chain, the forward pass, [F.softmax] and the clock. *)
Context {Model Weights Image Tensor : Type}.
Variable torch_load : string → result Weights.
Variable load_state_dict : Model → Weights → result Model.
Variable image_open : string → result Image.
Variable transforms : Image → result Tensor.
Variable forward : Model → Tensor → result (list Qc).
Variable softmax : list Qc → list Qc.
Variable isoformat_now : nat → string.

(** The attributes of a [Predictor] instance that its methods read or write
    ([device] and the fixed transform chain are left to the variables). *)
Record Predictor : Type := mkPredictor {
  species_mapping : gmap Z string;
  confidence_threshold : Qc;
  model : option Model;
  model_path : string;
  is_loaded : bool
}.

(** [Predictor.__init__] *)
Definition init (model_path : string) (species_mapping : gmap Z string)
    (confidence_threshold : Qc) : Predictor :=
  mkPredictor species_mapping confidence_threshold None model_path false.

Definition set_model (p : Predictor) (m : Model) : Predictor :=
  mkPredictor (species_mapping p) (confidence_threshold p) (Some m)
    (model_path p) (is_loaded p).

Definition set_is_loaded (p : Predictor) (b : bool) : Predictor :=
  mkPredictor (species_mapping p) (confidence_threshold p) (model p)
    (model_path p) b.

(** [Predictor.load_model]: the outcome and the predictor afterwards.
    A failure after line 60 leaves [model] assigned and [is_loaded] false. *)
Definition load_model (p : Predictor) (model_class : nat → result Model)
    : result unit * Predictor :=
  if is_loaded p then (Ok (), p)
  else
    let num_classes := size (species_mapping p) in
    match model_class num_classes with
    | Raise e => (Raise e, p)
    | Ok m =>
        let p1 := set_model p m in
        match torch_load (model_path p1) with
        | Raise e => (Raise e, p1)
        | Ok w =>
            match load_state_dict m w with
            | Raise e => (Raise e, p1)
            | Ok m' => (Ok (), set_is_loaded (set_model p1 m') true)
            end
        end
    end.

(** [self.species_mapping[idx]] *)
Definition species_of (p : Predictor) (idx : nat) : result string :=
  match species_mapping p !! Z.of_nat idx with
  | Some s => Ok s
  | None => Raise (KeyError (pretty (Z.of_nat idx)))
  end.

Definition not_loaded : exn :=
  RuntimeError "Model not loaded. Call load_model() first.".

(** The body of [predict_single] after the guard, up to the returned dict;
    [ts] is the value of [datetime.now().isoformat()] at line 113. *)
Definition predict_loaded (p : Predictor) (ts : string) (image_path : string)
    : result Dict :=
  image ← image_open image_path;
  image_tensor ← transforms image;
  m ← match model p with
      | Some m => Ok m
      | None => Raise (TypeError "'NoneType' object is not callable")
      end;
  outputs ← forward m image_tensor;
  let probabilities := softmax outputs in
  '(confidence, predicted_idx) ← torch.max probabilities;
  predicted_species ← species_of p predicted_idx;
  top ← torch.topk probabilities (3 `min` size (species_mapping p));
  top_predictions ←
    mapM (λ '(prob, idx), s ← species_of p idx; Ok (s, prob)) top;
  Ok (<["image_path" := VStr image_path]>
      (<["predicted_species" := VStr predicted_species]>
      (<["confidence" := VNum confidence]>
      (<["is_confident" :=
           VBool (Qcleb (confidence_threshold p) confidence)]>
      (<["top_predictions" := VTop top_predictions]>
      (<["timestamp" := VStr ts]> (∅ : Dict))))))).

(** [Predictor.predict_single]. The clock is a counter of the readings taken
    so far; a successful call takes one reading. The predictor itself is
    returned to make explicit that no attribute is assigned. *)
Definition predict_single (p : Predictor) (clock : nat) (image_path : string)
    : result Dict * Predictor * nat :=
  if negb (is_loaded p) then (Raise not_loaded, p, clock)
  else
    match predict_loaded p (isoformat_now clock) image_path with
    | Ok d => (Ok d, p, S clock)
    | Raise e => (Raise e, p, clock)
    end.

(** The dict appended by the [except Exception as e] branch. *)
Definition error_record (image_path : string) (e : exn) : Dict :=
  <["image_path" := VStr image_path]>
  (<["error" := VStr (str e)]> (∅ : Dict)).

(** What the loop of [predict_batch] appends for one image. *)
Definition batch_item (p : Predictor) (clock : nat) (image_path : string) : Dict :=
  match (predict_single p clock image_path).1.1 with
  | Ok result => result
  | Raise e => error_record image_path e
  end.

(** One iteration of the loop of [predict_batch]. *)
Definition batch_step (acc : list Dict * Predictor * nat) (image_path : string)
    : list Dict * Predictor * nat :=
  let '(results, p, clock) := acc in
  match predict_single p clock image_path with
  | (Ok result, p', clock') => (results ++ [result], p', clock')
  | (Raise e, p', clock') => (results ++ [error_record image_path e], p', clock')
  end.

(** [Predictor.predict_batch] *)
Definition predict_batch (p : Predictor) (clock : nat) (image_paths : list string)
    : list Dict * Predictor * nat :=
  foldl batch_step ([], p, clock) image_paths.

(** [valid_extensions]; a Python set, iterated here in the order written. *)
Definition valid_extensions : list string := [".jpg"; ".jpeg"; ".png"; ".bmp"].

(** The paths collected by [predict_directory] before it delegates to
    [predict_batch]; [content] is what the directory holds. *)
Definition image_paths (directory_path : string)
    (content : list pathlib.entry) (recursive : bool) : list string :=
  if recursive then
    foldl (λ image_paths ext,
             image_paths ++ pathlib.rglob ext directory_path content)
          [] valid_extensions
  else
    List.filter
      (λ f, bool_decide
              (pathlib.lower (pathlib.suffix (pathlib.basename f))
                 ∈ valid_extensions))
      (pathlib.glob_star directory_path content).

(** [Predictor.predict_directory] *)
Definition predict_directory (p : Predictor) (clock : nat)
    (directory_path : string) (content : list pathlib.entry)
    (recursive : bool) : list Dict * Predictor * nat :=
  predict_batch p clock (image_paths directory_path content recursive).

(** The public operations of a [Predictor], as a caller issues them. *)
Inductive call : Type :=
| LoadModel (model_class : nat → result Model)
| PredictSingle (image_path : string)
| PredictBatch (image_paths : list string)
| PredictDirectory (directory_path : string) (content : list pathlib.entry)
    (recursive : bool)
| GetPredictionStatistics (predictions : list Dict).

(** The predictor and the clock after one call; what the call returns or
    raises is dropped. *)
Definition step (s : Predictor * nat) (c : call) : Predictor * nat :=
  let '(p, clock) := s in
  match c with
  | LoadModel model_class => ((load_model p model_class).2, clock)
  | PredictSingle image_path =>
      let '(_, p', clock') := predict_single p clock image_path in (p', clock')
  | PredictBatch image_paths =>
      let '(_, p', clock') := predict_batch p clock image_paths in (p', clock')
  | PredictDirectory directory_path content recursive =>
      let '(_, p', clock') :=
        predict_directory p clock directory_path content recursive in
      (p', clock')
  | GetPredictionStatistics _ => (p, clock)
  end.

(** Any sequence of calls on one predictor. *)
Definition run (s : Predictor * nat) (calls : list call) : Predictor * nat :=
  foldl step s calls.

End Predictor.

(** ** Reference semantics of the array reductions *)

Module np.

(** The elements of a list as floats, as [np.asarray] converts them. *)
Definition asarray (l : list value) : result (list Qc) := mapM as_float l.

(** [np.mean]; on an empty list numpy returns nan, which no [Qc] stands
    for, so the model raises. *)
Definition mean (l : list value) : result Qc :=
  xs ← asarray l;
  if xs is [] then Raise (ValueError "mean of empty slice")
  else Ok (Qcsum xs / Qc_of_nat (length xs))%Qc.

Definition Qcmin (x y : Qc) : Qc := if Qcleb x y then x else y.
Definition Qcmax (x y : Qc) : Qc := if Qcleb x y then y else x.

(** [np.min] and [np.max]: [ValueError] on an empty list. *)
Definition min (l : list value) : result Qc :=
  xs ← asarray l;
  match xs with
  | [] => Raise (ValueError "zero-size array to reduction operation minimum")
  | x :: r => Ok (foldl Qcmin x r)
  end.

Definition max (l : list value) : result Qc :=
  xs ← asarray l;
  match xs with
  | [] => Raise (ValueError "zero-size array to reduction operation maximum")
  | x :: r => Ok (foldl Qcmax x r)
  end.

(** The population variance, [mean(abs(x - x.mean())**2)]. *)
Definition var (xs : list Qc) : Qc :=
  let mu := (Qcsum xs / Qc_of_nat (length xs))%Qc in
  (Qcsum ((λ x, (x - mu) * (x - mu))%Qc <$> xs) / Qc_of_nat (length xs))%Qc.

(** [np.std]: the square root of the variance; the root is the caller's. *)
Definition std (sqrt : Qc → Qc) (l : list value) : result Qc :=
  xs ← asarray l;
  if xs is [] then Raise (ValueError "std of empty slice")
  else Ok (sqrt (var xs)).

End np.

(** ** [PredictionLogger] (src/monitoring/monitor.py) *)

(** The files of the log directory: a path holds the records written to it,
    one per line. A line is kept as the dict it serialises ([json.loads]
    after [json.dumps] gives the dict back). *)
Abbreviation files := (gmap string (list Dict)).

Record PredictionLogger : Type := mkLogger {
  log_dir : string;
  current_session_path : string
}.

(** [PredictionLogger.__init__] with [_create_new_session]; [timestamp] is
    [datetime.now().strftime('%Y%m%d_%H%M%S')]. No file is created. *)
Definition new_logger (log_dir timestamp : string) : PredictionLogger :=
  mkLogger log_dir (pathlib.join log_dir ("session_" +:+ timestamp +:+ ".jsonl")).

(** [open(path, 'a')] followed by one [write]: the file is created when it
    does not exist. *)
Definition append_line (fs : files) (path : string) (line : Dict) : files :=
  <[path := default [] (fs !! path) ++ [line]]> fs.

(** [PredictionLogger.log_prediction] *)
Definition log_prediction (lg : PredictionLogger) (fs : files) (prediction : Dict)
    : files :=
  append_line fs (current_session_path lg) prediction.

(** [PredictionLogger.log_batch] *)
Definition log_batch (lg : PredictionLogger) (fs : files) (predictions : list Dict)
    : files :=
  foldl (log_prediction lg) fs predictions.

(** The full dict returned by [get_session_statistics]. *)
Record SessionStatistics : Type := mkSessionStatistics {
  session_total_predictions : nat;
  session_successful_predictions : Z;
  session_errors : nat;
  session_average_confidence : Qc;
  session_min_confidence : Qc;
  session_max_confidence : Qc;
  session_std_confidence : Qc;
  session_species_distribution : gmap string nat
}.

(** What [get_session_statistics] returns: [{}] or the full dict. *)
Inductive SessionResult : Type :=
| EmptyDict
| StatsDict (s : SessionStatistics).

(** The body of the [for pred in predictions] loop: the histogram, the
    confidence scores and the error count. *)
Definition session_step (acc : gmap string nat * list value * nat) (pred : Dict)
    : result (gmap string nat * list value * nat) :=
  let '(species_counts, confidence_scores, error_count) := acc in
  if contains pred "error" then
    Ok (species_counts, confidence_scores, error_count + 1)
  else
    species ← getitem pred "predicted_species" ≫= as_str;
    confidence ← getitem pred "confidence";
    Ok (<[species := default 0 (species_counts !! species) + 1]> species_counts,
        confidence_scores ++ [confidence], error_count).

(** [Path(session_file) if session_file else self.current_session_path] *)
Definition session_log_file (lg : PredictionLogger) (session_file : option string)
    : string :=
  match session_file with
  | Some f => if String.eqb f "" then current_session_path lg else f
  | None => current_session_path lg
  end.

(** A logged record shaped like a successful prediction, as far as the
    session statistics read it. *)
Definition is_logged_prediction (p : Dict) : Prop :=
  ∃ s c, p !! "predicted_species" = Some (VStr s) ∧
         p !! "confidence" = Some (VNum c).

Section Logger.

(** The square root used by [np.std]. *)
Variable sqrt : Qc → Qc.

(** [PredictionLogger.get_session_statistics] *)
Definition get_session_statistics (lg : PredictionLogger) (fs : files)
    (session_file : option string) : result SessionResult :=
  let log_file := session_log_file lg session_file in
  match fs !! log_file with
  | None => Ok EmptyDict
  | Some predictions =>
      '(species_counts, confidence_scores, error_count) ←
        foldlM session_step (∅, [], 0) predictions;
      average ← (if confidence_scores is [] then Ok 0%Qc
                 else np.mean confidence_scores);
      minimum ← (if confidence_scores is [] then Ok 0%Qc
                 else np.min confidence_scores);
      maximum ← (if confidence_scores is [] then Ok 0%Qc
                 else np.max confidence_scores);
      deviation ← (if confidence_scores is [] then Ok 0%Qc
                   else np.std sqrt confidence_scores);
      Ok (StatsDict
            (mkSessionStatistics (length predictions)
               (Z.of_nat (length predictions) - Z.of_nat error_count)
               error_count average minimum maximum deviation species_counts))
  end.

End Logger.

(** ** [ModelMonitor] (src/monitoring/monitor.py) *)

Record ModelMonitor : Type := mkMonitor {
  metrics_dir : string;
  metrics_history : list Dict
}.

(** [ModelMonitor.__init__] *)
Definition new_monitor (metrics_dir : string) : ModelMonitor :=
  mkMonitor metrics_dir [].

(** [ModelMonitor.record_metrics]; [ts] is [datetime.now().isoformat()].
    The keys of [metrics] come last in the dict display and so win. *)
Definition record_metrics (mon : ModelMonitor) (fs : files) (ts : string)
    (metrics : Dict) (model_version : option string) : ModelMonitor * files :=
  let metric_entry : Dict :=
    metrics ∪
    <["timestamp" := VStr ts]>
      (<["model_version" := from_option VStr VNone model_version]> ∅) in
  (mkMonitor (metrics_dir mon) (metrics_history mon ++ [metric_entry]),
   append_line fs (pathlib.join (metrics_dir mon) "metrics_log.jsonl") metric_entry).

(** The dict returned by [detect_performance_drift]: with few snapshots only
    [drift_detected] and [reason], otherwise [drift_detected] and the rest. *)
Record DriftDetails : Type := mkDriftDetails {
  accuracy_drop : Qc;
  threshold : Qc;
  oldest_accuracy : value;
  recent_accuracy : Qc;
  recommendation : string
}.

Record DriftReport : Type := mkDriftReport {
  drift_detected : bool;
  reason : option string;
  details : option DriftDetails
}.

(** [m.get('accuracy', 0)] *)
Definition get_accuracy (m : Dict) : value := default (VNum 0%Qc) (m !! "accuracy").


(** [ModelMonitor.detect_performance_drift] *)
Definition detect_performance_drift (mon : ModelMonitor) (threshold : Qc)
    : result DriftReport :=
  let history := metrics_history mon in
  if bool_decide (length history < 2) then
    Ok (mkDriftReport false (Some "Insufficient data") None)
  else
    let recent := drop (length history - 10) history in
    oldest ← match history !! 0 with
             | Some m => Ok m
             | None => Raise (IndexError "list index out of range")
             end;
    recent_acc ← np.mean (get_accuracy <$> recent);
    let oldest_acc := get_accuracy oldest in
    oldest_num ← as_float oldest_acc;
    let accuracy_drop := (oldest_num - recent_acc)%Qc in
    Ok (mkDriftReport (Qcltb threshold accuracy_drop) None
          (Some (mkDriftDetails accuracy_drop threshold oldest_acc recent_acc
                   (if Qcltb threshold accuracy_drop then "Retrain model"
                    else "Model performing well")))).

(** ** [WildlifeModel] and [Trainer] (src/training/trainer.py) *)

(** Of a [WildlifeModel] the training control flow touches only the
    [requires_grad] flags of [backbone.parameters()], in parameter order. *)
Record WildlifeModel : Type := mkModel {
  requires_grad : list bool
}.

(** [WildlifeModel.freeze_backbone]: every parameter but the last. *)
Definition freeze_backbone (m : WildlifeModel) : WildlifeModel :=
  let ps := requires_grad m in
  mkModel (((λ _, false) <$> take (length ps - 1) ps) ++ drop (length ps - 1) ps).

(** [WildlifeModel.unfreeze_backbone] *)
Definition unfreeze_backbone (m : WildlifeModel) : WildlifeModel :=
  mkModel ((λ _, true) <$> requires_grad m).

(** One entry of each of the four lists of [Trainer.history]. *)
Record EpochMetrics : Type := mkEpochMetrics {
  train_loss : Qc;
  train_acc : Qc;
  val_loss : Qc;
  val_acc : Qc
}.

(** A file written by [_save_checkpoint]: the epoch and accuracy of its
    name and the history it stores. *)
Record Checkpoint : Type := mkCheckpoint {
  ckpt_epoch : Z;
  ckpt_val_acc : Qc;
  ckpt_history : list EpochMetrics
}.

(** What the statements below observe of one pass through the loop body:
    the epoch number, the [requires_grad] flags in effect while the epoch
    trained, and [patience_counter] at the end of the body. *)
Record EpochLog : Type := mkEpochLog {
  log_epoch : Z;
  log_flags : list bool;
  log_counter : nat
}.

(** What [fit] reads and writes: the model's flags, [self.history], the
    checkpoint files and the two loop variables; and, kept for the statements
    below only, one [EpochLog] per pass through the loop body and the epochs
    at which [unfreeze_backbone] was called. *)
Record FitState : Type := mkFitState {
  fit_model : WildlifeModel;
  history : list EpochMetrics;
  checkpoints : list Checkpoint;
  best_val_loss : option Qc;
  patience_counter : nat;
  epoch_log : list EpochLog;
  unfreeze_calls : list Z
}.

(** [val_loss < best_val_loss], where [None] is [float('inf')]. *)
Definition below_best (v : Qc) (best : option Qc) : bool :=
  match best with
  | None => true
  | Some b => Qcltb v b
  end.

Definition max_patience : nat := 5.

Inductive flow : Type := Continue | Break.

Section Trainer.

(** The outcome of [train_epoch] followed by [validate] in a given epoch
    under given flags: the optimisation itself is the framework's. *)
Variable run_epoch : Z → list bool → EpochMetrics.

(** The body of the [for epoch in range(1, epochs + 1)] loop. *)
Definition fit_body (freeze : bool) (unfreeze_at_epoch : Z) (epoch : Z)
    (st : FitState) : FitState * flow :=
  let unfreeze := (epoch =? unfreeze_at_epoch)%Z && freeze in
  let model := if unfreeze then unfreeze_backbone (fit_model st)
               else fit_model st in
  let calls := if unfreeze then unfreeze_calls st ++ [epoch]
               else unfreeze_calls st in
  let m := run_epoch epoch (requires_grad model) in
  let history := history st ++ [m] in
  if below_best (val_loss m) (best_val_loss st) then
    (mkFitState model history
       (checkpoints st ++ [mkCheckpoint epoch (val_acc m) history])
       (Some (val_loss m)) 0
       (epoch_log st ++ [mkEpochLog epoch (requires_grad model) 0]) calls,
     Continue)
  else
    let patience_counter := patience_counter st + 1 in
    (mkFitState model history (checkpoints st) (best_val_loss st)
       patience_counter
       (epoch_log st ++ [mkEpochLog epoch (requires_grad model) patience_counter])
       calls,
     if bool_decide (max_patience ≤ patience_counter) then Break else Continue).

Fixpoint fit_loop (freeze : bool) (unfreeze_at_epoch : Z) (epochs : list Z)
    (st : FitState) : FitState :=
  match epochs with
  | [] => st
  | epoch :: rest =>
      match fit_body freeze unfreeze_at_epoch epoch st with
      | (st', Break) => st'
      | (st', Continue) => fit_loop freeze unfreeze_at_epoch rest st'
      end
  end.

(** The state in which the loop of [fit] starts, after the optional
    [freeze_backbone], on a trainer whose model is [m] and whose history so
    far is [h]. *)
Definition fit_start (m : WildlifeModel) (h : list EpochMetrics)
    (freeze : bool) : FitState :=
  mkFitState (if freeze then freeze_backbone m else m) h [] None 0 [] [].

(** [Trainer.fit]; [history] of the final state is what the method
    returns. *)
Definition fit (m : WildlifeModel) (h : list EpochMetrics) (epochs : Z)
    (freeze : bool) (unfreeze_at_epoch : Z) : FitState :=
  fit_loop freeze unfreeze_at_epoch (seqZ 1 epochs) (fit_start m h freeze).

(** The validation losses of the epochs a run went through, in order. *)
Definition run_losses (st : FitState) : list Qc :=
  (λ ev, val_loss (run_epoch (log_epoch ev) (log_flags ev))) <$> epoch_log st.

End Trainer.

(** [v] is strictly below every loss of [prev]: below the best seen so far. *)
Definition improves (prev : list Qc) (v : Qc) : bool := forallb (Qcltb v) prev.

(** Is the [k]-th loss of a run strictly below all the losses before it? *)
Definition improving_at (losses : list Qc) (k : nat) : bool :=
  match losses !! k with
  | Some v => improves (take k losses) v
  | None => false
  end.

(** [patience_counter] when the [k]-th pass through the loop body starts. *)
Definition counter_before (log : list EpochLog) (k : nat) : nat :=
  match k with
  | 0 => 0
  | S j => default 0 (log_counter <$> log !! j)
  end.



(** What holds of a run of [fit] each time the loop body has been left, for
    the phases: [done] are the epochs gone through, [m] the model the run
    started from. *)
Definition phase_inv (m : WildlifeModel) (freeze : bool) (unfreeze_at_epoch : Z)
    (done : list Z) (st : FitState) : Prop :=
  let start := requires_grad (if freeze then freeze_backbone m else m) in
  let flags_after (es : list Z) :=
    if freeze && bool_decide (unfreeze_at_epoch ∈ es)
    then requires_grad (unfreeze_backbone m) else start in
  log_epoch <$> epoch_log st = done ∧
  requires_grad (fit_model st) = flags_after done ∧
  unfreeze_calls st =
    (if freeze then filter (λ e, e = unfreeze_at_epoch) done else []) ∧
  ∀ k ev, epoch_log st !! k = Some ev →
    log_flags ev = flags_after (take (S k) done).

(** The same for checkpoints and early stopping: [h] is the history the run
    started from, [fl] the way the last pass through the body ended. *)
Definition stop_inv (run_epoch : Z → list bool → EpochMetrics)
    (h : list EpochMetrics) (st : FitState) (fl : flow) : Prop :=
  let log := epoch_log st in
  let losses := run_losses run_epoch st in
  history st = h ++ ((λ ev, run_epoch (log_epoch ev) (log_flags ev)) <$> log) ∧
  match best_val_loss st with
  | None => losses = []
  | Some b => b ∈ losses ∧ ∀ x, x ∈ losses → (b ≤ x)%Qc
  end ∧
  (∀ e, e ∈ ckpt_epoch <$> checkpoints st ↔
        ∃ k ev, log !! k = Some ev ∧ log_epoch ev = e ∧
                improving_at losses k = true) ∧
  (∀ k ev, log !! k = Some ev →
     log_counter ev =
       if improving_at losses k then 0 else S (counter_before log k)) ∧
  patience_counter st = counter_before log (length log) ∧
  (∀ k ev, log !! k = Some ev → S k < length log →
     log_counter ev < max_patience) ∧
  match fl with
  | Continue => patience_counter st < max_patience
  | Break => patience_counter st = max_patience
  end.

(** What holds of the checkpoint files each time the loop body of [fit] has
    been left: every file stores the history as it was at the end of its
    epoch and the accuracy of that epoch, and the latest file is the one of
    the best validation loss. [done] are the epochs gone through, [h] the
    history the run started from. *)
Definition ckpt_inv (h : list EpochMetrics) (done : list Z) (st : FitState)
    : Prop :=
  length (history st) = length h + length done ∧
  (∀ c, c ∈ checkpoints st →
     ∃ k, done !! k = Some (ckpt_epoch c) ∧
          ckpt_history c = take (length h + S k) (history st) ∧
          val_acc <$> last (ckpt_history c) = Some (ckpt_val_acc c)) ∧
  match best_val_loss st with
  | None => checkpoints st = []
  | Some b => ∃ c, last (checkpoints st) = Some c ∧
                   val_loss <$> last (ckpt_history c) = Some b
  end.

(** ** [ModelMonitor.get_performance_report], [DataQualityChecker]
    (src/monitoring/monitor.py) *)

(** [[m.get(key) for m in history if key in m]] *)
Definition metric_values (key : string) (history : list Dict) : list value :=
  omap (λ m : Dict, m !! key) history.

(** The full dict returned by [get_performance_report]. *)
Record PerformanceReport : Type := mkPerformanceReport {
  total_evaluations : nat;
  average_accuracy : Qc;
  max_accuracy : Qc;
  min_accuracy : Qc;
  average_loss : Qc;
  min_loss : Qc;
  max_loss : Qc;
  last_evaluation : option Dict
}.

(** What [get_performance_report] returns: [{}] or the full dict. *)
Inductive ReportResult : Type :=
| EmptyReport
| FullReport (r : PerformanceReport).

(** [ModelMonitor.get_performance_report] *)
Definition get_performance_report (mon : ModelMonitor) : result ReportResult :=
  let history := metrics_history mon in
  if history is [] then Ok EmptyReport
  else
    let accuracies := metric_values "accuracy" history in
    let losses := metric_values "loss" history in
    average_accuracy ← (if accuracies is [] then Ok 0%Qc else np.mean accuracies);
    max_accuracy ← (if accuracies is [] then Ok 0%Qc else np.max accuracies);
    min_accuracy ← (if accuracies is [] then Ok 0%Qc else np.min accuracies);
    average_loss ← (if losses is [] then Ok 0%Qc else np.mean losses);
    min_loss ← (if losses is [] then Ok 0%Qc else np.min losses);
    max_loss ← (if losses is [] then Ok 0%Qc else np.max losses);
    Ok (FullReport
          (mkPerformanceReport (length history) average_accuracy max_accuracy
             min_accuracy average_loss min_loss max_loss (last history))).

(** A sequence of [record_metrics] calls on one monitor: the time stamp, the
    metrics and the model version of each call. *)
Definition record_all (mon : ModelMonitor) (fs : files)
    (calls : list (string * Dict * option string)) : ModelMonitor * files :=
  foldl (λ s call, record_metrics s.1 s.2 call.1.1 call.1.2 call.2)
        (mon, fs) calls.

(** The entry [record_metrics] builds for one call. *)
Definition metric_entry (call : string * Dict * option string) : Dict :=
  call.1.2 ∪
  <["timestamp" := VStr call.1.1]>
    (<["model_version" := from_option VStr VNone call.2]> ∅).

(** The dict returned by [check_dataset_balance]; [None] as imbalance ratio
    is [float('inf')]. *)
Record BalanceReport : Type := mkBalanceReport {
  total_samples : Z;
  num_species : nat;
  mean_samples_per_species : Qc;
  std_samples_per_species : Qc;
  imbalance_ratio : option Qc;
  is_balanced : bool;
  balance_species_distribution : gmap string Z
}.

Section DataQuality.

Variable sqrt : Qc → Qc.

(** [DataQualityChecker.check_dataset_balance] on a dict of integer counts.
    On an empty dict numpy gives nan for the mean and raises [ValueError] at
    [np.min]; the model raises the [ValueError] already at the mean. *)
Definition check_dataset_balance (species_counts : gmap string Z)
    : result BalanceReport :=
  let counts := (map_to_list species_counts).*2 in
  let array := (λ c, VNum (Qc_of_Z c)) <$> counts in
  let total := foldr Z.add 0%Z counts in
  mean_count ← np.mean array;
  std_count ← np.std sqrt array;
  lowest ← np.min array;
  imbalance_ratio ←
    (if Qcltb 0 lowest
     then highest ← np.max array; lowest ← np.min array;
          r ← truediv highest lowest; Ok (Some r)
     else Ok None);
  Ok (mkBalanceReport total (size species_counts) mean_count std_count
        imbalance_ratio
        (match imbalance_ratio with
         | Some r => Qcltb r (Qc_of_Z 3)
         | None => false
         end)
        species_counts).

End DataQuality.

(** ** [DataLoader.create_species_mapping] (src/data/loader.py) *)

(** [sorted] on a list of strings: ascending in the order of [str], which
    compares character by character and puts a prefix first. *)
Fixpoint insert_sorted (s : string) (l : list string) : list string :=
  match l with
  | [] => [s]
  | t :: r => if String.leb s t then s :: l else t :: insert_sorted s r
  end.

Definition sorted (l : list string) : list string := foldr insert_sorted [] l.

(** [{species: idx for idx, species in enumerate(sorted(species_list))}]:
    the pairs are entered in order, a later one replacing an earlier one of
    the same key. *)
Definition create_species_mapping (species_list : list string) : gmap string nat :=
  foldl (λ m p, <[p.2 := p.1]> m) ∅
        (zip (seq 0 (length species_list)) (sorted species_list)).

(** ** The inference script (predict.py) *)

Section InferenceScript.

Context {Model Weights Image Tensor : Type}.
Variable torch_load : string → result Weights.
Variable load_state_dict : Model → Weights → result Model.
Variable image_open : string → result Image.
Variable transforms : Image → result Tensor.
Variable forward : Model → Tensor → result (list Qc).
Variable softmax : list Qc → list Qc.
Variable isoformat_now : nat → string.
Variable sqrt : Qc → Qc.

(** The command line arguments [main] reads once the species map is parsed
    ([--image] and [--directory] default to [None]). *)
Record Args : Type := mkArgs {
  arg_model_path : string;
  arg_confidence_threshold : Qc;
  arg_log_dir : string;
  arg_image : option string;
  arg_directory : option string;
  arg_recursive : bool
}.

(** [if args.image:], [elif args.directory:]: an argument that is [None] or
    the empty string is not taken. *)
Definition given (a : option string) : option string :=
  match a with
  | Some s => if String.eqb s EmptyString then None else Some s
  | None => None
  end.

(** The end of [main]: the session statistics are fetched and two of their
    keys are printed. *)
Definition session_report (logger : PredictionLogger) (fs : files)
    : result SessionStatistics :=
  session_stats ← get_session_statistics sqrt logger fs None;
  match session_stats with
  | EmptyDict => Raise (KeyError "total_predictions")
  | StatsDict s => Ok s
  end.

(** [main] from the construction of the predictor on: the statistics it
    prints last ([None] when it returns early) and the files of the log
    directory. [species_mapping] is the parsed species map, [timestamp] the
    time stamp of the new session, [content] what the directory holds. Of
    the printing, the key lookups are kept. *)
Definition main (args : Args) (species_mapping : gmap Z string)
    (model_class : nat → result Model) (clock : nat) (timestamp : string)
    (content : list pathlib.entry) (fs : files)
    : result (option SessionStatistics) * files :=
  let predictor :=
    init (arg_model_path args) species_mapping (arg_confidence_threshold args) in
  let '(loaded, predictor) :=
    load_model torch_load load_state_dict predictor model_class in
  match loaded with
  | Raise e => (Raise e, fs)
  | Ok _ =>
      let logger := new_logger (arg_log_dir args) timestamp in
      match given (arg_image args), given (arg_directory args) with
      | Some image, _ =>
          let '(predicted, _, _) :=
            predict_single image_open transforms forward softmax isoformat_now
              predictor clock image in
          match predicted with
          | Raise e => (Raise e, fs)
          | Ok result =>
              match (_ ← getitem result "predicted_species";
                     _ ← getitem result "confidence";
                     _ ← getitem result "is_confident";
                     getitem result "top_predictions") with
              | Raise e => (Raise e, fs)
              | Ok _ =>
                  let fs := log_prediction logger fs result in
                  (s ← session_report logger fs; Ok (Some s), fs)
              end
          end
      | None, Some directory =>
          let '(results, _, _) :=
            predict_directory image_open transforms forward softmax isoformat_now
              predictor clock directory content (arg_recursive args) in
          let fs := log_batch logger fs results in
          match get_prediction_statistics results with
          | Raise e => (Raise e, fs)
          | Ok stats => (s ← session_report logger fs; Ok (Some s), fs)
          end
      | None, None => (Ok None, fs)
      end
  end.

End InferenceScript.

(** ** The prediction service (app.py) *)

Module app.

(** [needle in s] for strings *)
Fixpoint str_contains (needle s : string) : bool :=
  String.prefix needle s ||
  match s with
  | EmptyString => false
  | String _ r => str_contains needle r
  end.

(** The fields of an [UploadFile] the endpoint reads; [read] is the outcome
    of [await image.read()]. *)
Record UploadFile : Type := mkUploadFile {
  content_type : option string;
  filename : option string;
  read : result string
}.

(** How a request ends: with the returned body, with an [HTTPException], or
    with an [UnboundLocalError] for the named variable leaving the handler. *)
Inductive response : Type :=
| Return (body : Dict)
| HTTPException (status_code : nat) (detail : string)
| UnboundLocalError (variable : string).

Record HealthResponse : Type := mkHealthResponse {
  status : string;
  model_loaded : bool;
  model_version : string;
  species_count : nat;
  uptime_seconds : Qc
}.

Section Service.

Context {Model Image Tensor : Type}.
Variable image_open : string → result Image.
Variable transforms : Image → result Tensor.
Variable forward : Model → Tensor → result (list Qc).
Variable softmax : list Qc → list Qc.
Variable isoformat_now : nat → string.

(** [MODEL_VERSION], read from the environment when the module is loaded. *)
Variable MODEL_VERSION : string.

(** [Path(name).suffix] *)
Variable Path_suffix : string → string.

(** [tempfile.NamedTemporaryFile(delete=False, suffix=suffix)]: the path of
    the file it creates, or its failure. *)
Variable NamedTemporaryFile : string → result string.

(** [health_check]; [now] and [start_time] are readings of [time.time()]. *)
Definition health_check (predictor : option (@Predictor Model))
    (now start_time : Qc) : HealthResponse :=
  mkHealthResponse
    (if match predictor with Some p => is_loaded p | None => false end
     then "healthy" else "unhealthy")
    (match predictor with Some p => is_loaded p | None => false end)
    MODEL_VERSION
    (match predictor with Some p => size (species_mapping p) | None => 0 end)
    (now - start_time)%Qc.

(** The [except Exception as e] branch of [predict] once the temporary file
    is dealt with. *)
Definition handle (e : exn) : response :=
  if str_contains "cannot identify image file" (pathlib.lower (str e)) ||
     str_contains "corrupted" (pathlib.lower (str e))
  then HTTPException 400 ("Invalid or corrupted image file: " +:+ str e)
  else HTTPException 500 ("Model inference failed: " +:+ str e).

(** The body built from the result of [predict_single]. *)
Definition response_body (prediction : Dict) : result Dict :=
  predicted_species ← getitem prediction "predicted_species";
  confidence ← getitem prediction "confidence";
  is_confident ← getitem prediction "is_confident";
  top_predictions ← getitem prediction "top_predictions";
  timestamp ← getitem prediction "timestamp";
  Ok (<["predicted_species" := predicted_species]>
     (<["confidence" := confidence]>
     (<["is_confident" := is_confident]>
     (<["top_predictions" := top_predictions]>
     (<["model_version" := VStr MODEL_VERSION]>
     (<["timestamp" := timestamp]> (∅ : Dict))))))).

(** The [/predict] endpoint. [predictor] is the global set at startup,
    [tmp] the files of the temporary directory with their content. The
    temporary file exists from [NamedTemporaryFile] on; [temp_file_path] is
    assigned after the upload is read and written, so a failing read leaves
    both the [except] and the [finally] block with an unbound name. Writing
    the content is taken to succeed. *)
Definition predict (predictor : option (@Predictor Model)) (clock : nat)
    (image : UploadFile) (tmp : gmap string string)
    : response * gmap string string * nat :=
  match predictor with
  | None =>
      (HTTPException 503
         "Model not loaded. Service is starting up or failed to initialize.",
       tmp, clock)
  | Some p =>
      if negb (is_loaded p) then
        (HTTPException 503
           "Model not loaded. Service is starting up or failed to initialize.",
         tmp, clock)
      else
        match content_type image with
        | None =>
            (HTTPException 400
               "Invalid file type: None. Must be an image (jpg, jpeg, png).",
             tmp, clock)
        | Some ct =>
            if negb (String.eqb ct EmptyString) && String.prefix "image/" ct then
              let suffix :=
                match filename image with
                | Some f => if String.eqb f EmptyString then ".jpg" else Path_suffix f
                | None => ".jpg"
                end in
              match NamedTemporaryFile suffix with
              | Raise e => (handle e, tmp, clock)
              | Ok temp_file_path =>
                  let tmp := <[temp_file_path := EmptyString]> tmp in
                  match read image with
                  | Raise e => (UnboundLocalError "temp_file_path", tmp, clock)
                  | Ok content =>
                      let tmp := <[temp_file_path := content]> tmp in
                      let '(predicted, _, clock) :=
                        predict_single image_open transforms forward softmax
                          isoformat_now p clock temp_file_path in
                      match predicted ≫= response_body with
                      | Ok body => (Return body, delete temp_file_path tmp, clock)
                      | Raise e => (handle e, delete temp_file_path tmp, clock)
                      end
                  end
              end
            else
              (HTTPException 400
                 ("Invalid file type: " +:+ ct +:+
                  ". Must be an image (jpg, jpeg, png)."),
               tmp, clock)
        end
  end.

End Service.

End app.

(** ** Concrete inputs

    A three-species predictor over a stand-in for the framework: an image is
    the score vector the model gives it, [broken.jpg] does not decode, and
    the normalisation [x / sum] stands for softmax (the exponential has no
    rational values). *)

Definition demo_mapping : gmap Z string :=
  <[0%Z := "Lion"]> (<[1%Z := "Elephant"]> (<[2%Z := "Zebra"]> ∅)).

Definition demo_scores : list Qc := [ratio 5 1; ratio 1 1; ratio 1 10].

Definition demo_open (path : string) : result (list Qc) :=
  if String.eqb path "broken.jpg"
  then Raise (ExternalError "cannot identify image file 'broken.jpg'")
  else Ok demo_scores.

Definition demo_transforms (image : list Qc) : result (list Qc) := Ok image.

Definition demo_forward (m : unit) (tensor : list Qc) : result (list Qc) :=
  Ok tensor.

Definition demo_softmax (l : list Qc) : list Qc := (λ x, x / Qcsum l)%Qc <$> l.

Definition demo_now (n : nat) : string := "2024-05-01T10:00:0" +:+ pretty n.

Definition demo_predictor : @Predictor unit :=
  mkPredictor demo_mapping (ratio 1 2) (Some ()) "models/wildlife_model.pt" true.

Definition demo_predict_single :=
  predict_single demo_open demo_transforms demo_forward demo_softmax demo_now.

Definition demo_predict_batch :=
  predict_batch demo_open demo_transforms demo_forward demo_softmax demo_now.

(** The results of a batch of three images of which the second is broken. *)
Definition demo_results : list Dict :=
  (demo_predict_batch demo_predictor 0 ["lion.jpg"; "broken.jpg"; "zebra.jpg"]).1.1.

(** A session in which those results were logged, and one in which nothing
    was. *)
Definition demo_logger : PredictionLogger :=
  new_logger "data/predictions_log" "20240501_100000".

Definition demo_files : files := log_batch demo_logger ∅ demo_results.

(** Ten snapshots: accuracy 0.90 first, then eight times 0.80, then 0.70. *)
Definition demo_snapshot (accuracy : Qc) : Dict :=
  <["timestamp" := VStr "2024-05-01T10:00:00"]>
  (<["model_version" := VNone]> (<["accuracy" := VNum accuracy]> ∅)).



Definition demo_model : WildlifeModel := mkModel [true; true; true].


(** * Properties *)

(** ** Comparisons on [Qc] *)

Lemma Qcltb_lt (x y : Qc) : Qcltb x y = true ↔ (x < y)%Qc.
Proof.
  unfold Qcltb. rewrite Qclt_alt.
  destruct (x ?= y)%Qc; split; congruence.
Qed.

Lemma Qcltb_ge (x y : Qc) : Qcltb x y = false ↔ (y ≤ x)%Qc.
Proof.
  rewrite Qcle_ngt, <- Qcltb_lt. destruct (Qcltb x y); split; congruence.
Qed.

Lemma Qcleb_le (x y : Qc) : Qcleb x y = true ↔ (x ≤ y)%Qc.
Proof.
  unfold Qcleb. rewrite Qcle_alt.
  destruct (x ?= y)%Qc; split; congruence.
Qed.

Lemma Qceqb_eq (x y : Qc) : Qceqb x y = true ↔ x = y.
Proof.
  unfold Qceqb. rewrite Qceq_alt.
  destruct (x ?= y)%Qc; split; congruence.
Qed.

(** ** The tensor primitives *)












(** ** Dicts *)

Lemma getitem_Some (d : Dict) (key : string) (v : value) :
  d !! key = Some v → getitem d key = Ok v.
Proof. intros H. unfold getitem. by rewrite H. Qed.

Lemma contains_true (d : Dict) (key : string) :
  contains d key = true ↔ is_Some (d !! key).
Proof. unfold contains. apply bool_decide_eq_true. Qed.

Lemma contains_false (d : Dict) (key : string) :
  contains d key = false ↔ ¬ is_Some (d !! key).
Proof. unfold contains. apply bool_decide_eq_false. Qed.

(** ** [get_prediction_statistics] *)

Lemma Qc_of_nat_S_nonzero (n : nat) : Qceqb (Qc_of_nat (S n)) 0 = false.
Proof.
  destruct (Qceqb (Qc_of_nat (S n)) 0) eqn:E; [|done].
  apply Qceqb_eq in E. apply (f_equal this) in E.
  unfold Qc_of_nat, Qc_of_Z in E. simpl in E. injection E. lia.
Qed.

Lemma truediv_S (a : Qc) (n : nat) :
  truediv a (Qc_of_nat (S n)) = Ok (a / Qc_of_nat (S n))%Qc.
Proof. unfold truediv. by rewrite Qc_of_nat_S_nonzero. Qed.

Lemma filterM_confident (l : list Dict) :
  Forall is_prediction_result l →
  filterM (λ p, v ← getitem p "is_confident"; Ok (truthy v)) l =
  Ok (filter (λ p, confident_of p = true) l).
Proof.
  induction 1 as [|p l (s & c & b & _ & _ & Hb) _ IH]; [done|].
  cbn [filterM]. rewrite (getitem_Some _ _ _ Hb). cbn [mbind result_bind truthy].
  rewrite IH. cbn [mbind result_bind].
  assert (confident_of p = b) as Hcb by (unfold confident_of; by rewrite Hb).
  rewrite filter_cons, Hcb.
  destruct b; [rewrite decide_True by done|rewrite decide_False by done]; done.
Qed.

Lemma count_label_cons (s : string) (p : Dict) (l : list Dict) :
  count_label s (p :: l) =
  (if decide (label_of p = Some s) then 1 else 0) + count_label s l.
Proof.
  unfold count_label. rewrite filter_cons. by destruct (decide _).
Qed.

(** The loop over the valid predictions adds to the histogram, per label,
    the number of dicts that carry it, and to the total the sum of the
    confidences. *)
Lemma foldlM_count_step (l : list Dict) (m : gmap string nat) (t : Qc) :
  Forall is_prediction_result l →
  ∃ m', foldlM count_step (m, t) l = Ok (m', (t + Qcsum (confidence_of <$> l))%Qc) ∧
    ∀ s, m' !! s =
         if decide (count_label s l = 0) then m !! s
         else Some (default 0 (m !! s) + count_label s l).
Proof.
  intros H. revert m t.
  induction H as [|p l (s & c & b & Hs & Hc & _) _ IH]; intros m t.
  { exists m. simpl. rewrite Qcplus_0_r. done. }
  cbn [foldlM count_step]. rewrite (getitem_Some _ _ _ Hs), (getitem_Some _ _ _ Hc).
  cbn [mbind result_bind as_str as_float].
  destruct (IH (<[s := default 0 (m !! s) + 1]> m) (t + c)%Qc) as (m' & -> & Hm').
  assert (confidence_of p = c) as Hcc by (unfold confidence_of; by rewrite Hc).
  assert (label_of p = Some s) as Hls by (unfold label_of; by rewrite Hs).
  exists m'. split.
  { rewrite fmap_cons, Hcc. cbn [Qcsum foldr]. by rewrite Qcplus_assoc. }
  intros s'. rewrite Hm', count_label_cons, Hls.
  destruct (decide (s = s')) as [->|Hne].
  - rewrite lookup_insert_eq.
    destruct (decide (Some s' = Some s')); [|done]. simpl.
    destruct (decide (count_label s' l = 0)) as [->|?]; f_equal; lia.
  - rewrite lookup_insert_ne by done.
    destruct (decide (Some s = Some s')); [congruence|]. done.
Qed.

Lemma filter_has_error_length (l : list Dict) :
  length (filter has_error l) + length (filter (λ p, ¬ has_error p) l) = length l.
Proof.
  induction l as [|p l IH]; [done|].
  rewrite !filter_cons. destruct (decide (has_error p)).
  - rewrite decide_False by tauto. simpl. lia.
  - rewrite decide_True by done. simpl. lia.
Qed.

(** C5. On every list of results, each either an error record or shaped
    like a prediction result (the empty list included),
    [get_prediction_statistics] returns; over the results without an [error]
    key it gives their number, the number of confident ones, the confidence
    rate confident/total and the mean confidence, both 0 when there is no
    such result, and for each label the number of results that carry it; the
    error count is the number of results minus the number without an
    [error] key, that is the number of error records. *)
Theorem statistics_total_and_exact (predictions : list Dict) :
  Forall (λ p, has_error p ∨ is_prediction_result p) predictions →
  let valid := filter (λ p, ¬ has_error p) predictions in
  let confident := filter (λ p, confident_of p = true) valid in
  ∃ st, get_prediction_statistics predictions = Ok st ∧
    total_predictions st = length valid ∧
    confident_predictions st = length confident ∧
    confidence_rate st =
      (if decide (length valid = 0%nat) then 0
       else Qc_of_nat (length confident) / Qc_of_nat (length valid))%Qc ∧
    average_confidence st =
      (if decide (length valid = 0%nat) then 0
       else Qcsum (confidence_of <$> valid) / Qc_of_nat (length valid))%Qc ∧
    (∀ s, species_distribution st !! s =
          if decide (count_label s valid = 0) then None
          else Some (count_label s valid)) ∧
    errors st = (Z.of_nat (length predictions) - Z.of_nat (length valid))%Z ∧
    errors st = Z.of_nat (length (filter has_error predictions)).
Proof.
  intros Hwf valid confident.
  assert (Forall is_prediction_result valid) as Hvalid.
  { apply Forall_forall. intros p Hp. apply list_elem_of_filter in Hp as [Hne Hp].
    eapply Forall_forall in Hwf; [|done]. tauto. }
  unfold get_prediction_statistics. fold valid.
  rewrite (filterM_confident valid Hvalid). simpl. fold confident.
  destruct (foldlM_count_step valid ∅ 0%Qc Hvalid) as (m' & -> & Hm'). simpl.
  rewrite Qcplus_0_l.
  pose proof (filter_has_error_length predictions) as Hlen. fold valid in Hlen.
  destruct valid as [|v valid'] eqn:Ev.
  - eexists. split; [done|]. simpl. split_and!; try done.
    simpl in Hlen. lia.
  - rewrite <- Ev in *.
    assert (length valid = S (length valid')) as El by (by rewrite Ev).
    rewrite El, !truediv_S. simpl.
    eexists. split; [done|]. simpl.
    split_and!; try done; lia.
Qed.

(** ** [predict_batch] *)

Section PredictorProperties.

Context {Model Weights Image Tensor : Type}.
Variable torch_load : string → result Weights.
Variable load_state_dict : Model → Weights → result Model.
Variable image_open : string → result Image.
Variable transforms : Image → result Tensor.
Variable forward : Model → Tensor → result (list Qc).
Variable softmax : list Qc → list Qc.
Variable isoformat_now : nat → string.

Local Abbreviation Predictor := (@Predictor Model).
Local Abbreviation predict_single :=
  (predict_single image_open transforms forward softmax isoformat_now).
Local Abbreviation predict_batch :=
  (predict_batch image_open transforms forward softmax isoformat_now).
Local Abbreviation predict_directory :=
  (predict_directory image_open transforms forward softmax isoformat_now).
Local Abbreviation batch_item :=
  (batch_item image_open transforms forward softmax isoformat_now).
Local Abbreviation load_model := (load_model torch_load load_state_dict).
Local Abbreviation step :=
  (step torch_load load_state_dict image_open transforms forward softmax
     isoformat_now).
Local Abbreviation run :=
  (run torch_load load_state_dict image_open transforms forward softmax
     isoformat_now).

Lemma predict_single_same_predictor (p : Predictor) clock image_path :
  (predict_single p clock image_path).1.2 = p.
Proof.
  unfold predict_single.
  destruct (negb (is_loaded p)); [done|].
  by destruct (predict_loaded _ _ _ _ _ _ _).
Qed.

Lemma predict_batch_snoc (p : Predictor) clock image_paths image_path :
  predict_batch p clock (image_paths ++ [image_path]) =
  let '(results, p', clock') := predict_batch p clock image_paths in
  (results ++ [batch_item p' clock' image_path],
   (predict_single p' clock' image_path).1.2,
   (predict_single p' clock' image_path).2).
Proof.
  unfold predict_batch. rewrite foldl_app. simpl.
  destruct (foldl _ _ image_paths) as [[results p'] clock'].
  unfold batch_step, batch_item.
  by destruct (predict_single p' clock' image_path) as [[[d|e] p''] clock''].
Qed.

Lemma predict_batch_same_predictor (p : Predictor) clock image_paths :
  (predict_batch p clock image_paths).1.2 = p.
Proof.
  induction image_paths as [|image_path image_paths IH] using rev_ind; [done|].
  rewrite predict_batch_snoc.
  destruct (predict_batch p clock image_paths) as [[results p'] clock'].
  simpl in *. subst p'. apply predict_single_same_predictor.
Qed.

Lemma predict_batch_length (p : Predictor) clock image_paths :
  length (predict_batch p clock image_paths).1.1 = length image_paths.
Proof.
  induction image_paths as [|image_path image_paths IH] using rev_ind; [done|].
  rewrite predict_batch_snoc.
  destruct (predict_batch p clock image_paths) as [[results p'] clock'].
  simpl in *. rewrite !length_app. simpl. lia.
Qed.

(** C1. [predict_batch] returns one item per input image, in input order:
    the item at position [i] is the dict [predict_single] returns for the
    [i]-th image (called at the clock the first [i] images have left), or,
    when that call raises, the error record holding the image path and the
    message of the exception; the images after a failing one are still
    processed, and the predictor is the same afterwards. *)
Theorem predict_batch_isolates_failures (p : Predictor) (clock : nat)
    (image_paths : list string) :
  let results := (predict_batch p clock image_paths).1.1 in
  length results = length image_paths ∧
  (predict_batch p clock image_paths).1.2 = p ∧
  ∀ (i : nat) (image_path : string),
    image_paths !! i = Some image_path →
    let clock_i := (predict_batch p clock (take i image_paths)).2 in
    results !! i =
      Some (match (predict_single p clock_i image_path).1.1 with
            | Ok result => result
            | Raise e =>
                <["image_path" := VStr image_path]>
                  (<["error" := VStr (str e)]> ∅)
            end).
Proof.
  simpl. split; [apply predict_batch_length|].
  split; [apply predict_batch_same_predictor|].
  induction image_paths as [|x image_paths IH] using rev_ind; [done|].
  intros i image_path Hi.
  pose proof (predict_batch_length p clock image_paths) as Hlen.
  pose proof (predict_batch_same_predictor p clock image_paths) as Hp.
  rewrite predict_batch_snoc.
  destruct (predict_batch p clock image_paths) as [[results p'] clock'] eqn:Hb.
  simpl in *. subst p'.
  destruct (decide (i < length image_paths)) as [Hlt|Hge].
  - rewrite lookup_app_l in Hi by done.
    rewrite lookup_app_l by lia.
    rewrite take_app_le by lia. by apply IH.
  - apply lookup_lt_Some in Hi as Hi'. rewrite length_app in Hi'. simpl in Hi'.
    assert (i = length image_paths) as -> by lia.
    rewrite lookup_app_r, Nat.sub_diag in Hi by lia. simplify_eq/=.
    rewrite lookup_app_r by lia. rewrite Hlen, Nat.sub_diag. simpl.
    rewrite take_app_length, Hb. done.
Qed.

(** ** [predict_single] *)

Local Arguments Nat.min : simpl never.




(** ** The load state of a [Predictor] *)

Lemma predict_directory_same_predictor (p : Predictor) clock dir content recursive :
  (predict_directory p clock dir content recursive).1.2 = p.
Proof. apply predict_batch_same_predictor. Qed.

(** Only [load_model] assigns an attribute of the predictor. *)
Lemma step_same_predictor (p : Predictor) clock (c : call) :
  match c with
  | LoadModel _ => True
  | _ => (step (p, clock) c).1 = p
  end.
Proof.
  destruct c as [mc|image_path|image_paths|dir content recursive|ps]; simpl; [done|..|done].
  - pose proof (predict_single_same_predictor p clock image_path) as H.
    by destruct (predict_single p clock image_path) as [[r p'] clock'].
  - pose proof (predict_batch_same_predictor p clock image_paths) as H.
    by destruct (predict_batch p clock image_paths) as [[r p'] clock'].
  - pose proof (predict_directory_same_predictor p clock dir content recursive) as H.
    by destruct (predict_directory p clock dir content recursive) as [[r p'] clock'].
Qed.

Lemma load_model_loaded (p : Predictor) (model_class : nat → result Model) :
  is_loaded p = true → load_model p model_class = (Ok (), p).
Proof. intros H. unfold load_model. by rewrite H. Qed.

Lemma step_loaded (p : Predictor) clock (c : call) :
  is_loaded p = true → (step (p, clock) c).1 = p.
Proof.
  intros H. pose proof (step_same_predictor p clock c) as Hc.
  destruct c; try done. simpl. by rewrite load_model_loaded.
Qed.

Lemma run_loaded (p : Predictor) clock (calls : list call) :
  is_loaded p = true → (run (p, clock) calls).1 = p.
Proof.
  intros H. revert clock. unfold run.
  induction calls as [|c calls IH]; intros clock; [done|].
  change (foldl step (p, clock) (c :: calls))
    with (foldl step (step (p, clock) c) calls).
  pose proof (step_loaded p clock c H) as Hs.
  destruct (step (p, clock) c) as [p' clock']. simpl in Hs. subst p'.
  apply IH.
Qed.

(** C3. A predictor is [Unloaded] ([is_loaded] false) or [Loaded]. On a
    [Loaded] predictor [load_model] returns at once and leaves every
    attribute, the model included, as it was, and no sequence of calls to
    the public operations changes the predictor, so there is no way back to
    [Unloaded]. On an [Unloaded] predictor [predict_single] raises the
    "Model not loaded" error, reads no clock and leaves the predictor as it
    was. Whatever the state, every operation other than [load_model] leaves
    the predictor unchanged. *)
Theorem predictor_load_state_machine (p : Predictor) (clock : nat) :
  (if is_loaded p then
     (∀ model_class, load_model p model_class = (Ok (), p)) ∧
     (∀ calls, (run (p, clock) calls).1 = p)
   else
     ∀ image_path,
       predict_single p clock image_path =
         (Raise (RuntimeError "Model not loaded. Call load_model() first."),
          p, clock)) ∧
  (∀ c, match c with
        | LoadModel _ => is_loaded p = true → (step (p, clock) c).1 = p
        | _ => (step (p, clock) c).1 = p
        end).
Proof.
  split.
  - destruct (is_loaded p) eqn:H.
    + split; [intros mc; by apply load_model_loaded|].
      intros calls. by apply run_loaded.
    + intros image_path. unfold predict_single. by rewrite H.
  - intros c. pose proof (step_same_predictor p clock c) as Hc.
    destruct c; try done. intros H. by apply step_loaded.
Qed.

End PredictorProperties.

(** ** [predict_directory] *)

(** C7. A directory that holds the single file [lion.JPG]: the listing that
    is not recursive compares the lower-cased suffix and keeps the file, the
    recursive listing matches [*.jpg] byte for byte and drops it; a file
    [lion.jpg] is kept by both. *)
Theorem recursive_listing_drops_upper_case_suffix :
  image_paths "photos" [pathlib.File "lion.JPG"] false = ["photos/lion.JPG"] ∧
  image_paths "photos" [pathlib.File "lion.JPG"] true = [] ∧
  image_paths "photos" [pathlib.File "lion.jpg"] false = ["photos/lion.jpg"] ∧
  image_paths "photos" [pathlib.File "lion.jpg"] true = ["photos/lion.jpg"].
Proof. by vm_compute. Qed.

(** ** [detect_performance_drift] *)




(** ** [PredictionLogger] *)

Lemma log_batch_snoc (lg : PredictionLogger) (fs : files) (ps : list Dict) (p : Dict) :
  log_batch lg fs (ps ++ [p]) = log_prediction lg (log_batch lg fs ps) p.
Proof. unfold log_batch. by rewrite foldl_app. Qed.

(** After [log_batch] the session file holds what it held before followed by
    the logged records, in order; logging nothing creates no file. *)
Lemma log_batch_lookup (lg : PredictionLogger) (fs : files) (ps : list Dict) :
  log_batch lg fs ps !! current_session_path lg =
  if ps is [] then fs !! current_session_path lg
  else Some (default [] (fs !! current_session_path lg) ++ ps).
Proof.
  induction ps as [|p ps IH] using rev_ind; [done|].
  rewrite log_batch_snoc. unfold log_prediction, append_line.
  rewrite lookup_insert_eq, IH.
  destruct ps as [|p' ps']; simpl.
  - by destruct (fs !! current_session_path lg).
  - by rewrite <- app_assoc.
Qed.

Lemma foldl_Qcmin_spec (r : list Qc) (x : Qc) :
  foldl np.Qcmin x r ∈ x :: r ∧ ∀ c, c ∈ x :: r → (foldl np.Qcmin x r ≤ c)%Qc.
Proof.
  revert x. induction r as [|y r IH]; intros x; simpl.
  { split; [apply list_elem_of_here|].
    intros c ->%list_elem_of_singleton. apply Qcle_refl. }
  destruct (IH (np.Qcmin x y)) as [Hin Hle]. split.
  - apply elem_of_cons in Hin as [Hin|Hin]; [|by do 2 apply list_elem_of_further].
    rewrite Hin. unfold np.Qcmin. destruct (Qcleb x y).
    + apply list_elem_of_here.
    + apply list_elem_of_further, list_elem_of_here.
  - assert (np.Qcmin x y ≤ x ∧ np.Qcmin x y ≤ y)%Qc as [Hx Hy].
    { unfold np.Qcmin. destruct (Qcleb x y) eqn:E.
      - apply Qcleb_le in E. split; [apply Qcle_refl|done].
      - split; [|apply Qcle_refl].
        apply Qclt_le_weak, Qcnot_le_lt. intros H%Qcleb_le. congruence. }
    pose proof (Hle _ (list_elem_of_here _ _)) as H0.
    intros c Hc. apply elem_of_cons in Hc as [->|Hc].
    + by apply Qcle_trans with (np.Qcmin x y).
    + apply elem_of_cons in Hc as [->|Hc].
      * by apply Qcle_trans with (np.Qcmin x y).
      * by apply Hle, list_elem_of_further.
Qed.

Lemma foldl_Qcmax_spec (r : list Qc) (x : Qc) :
  foldl np.Qcmax x r ∈ x :: r ∧ ∀ c, c ∈ x :: r → (c ≤ foldl np.Qcmax x r)%Qc.
Proof.
  revert x. induction r as [|y r IH]; intros x; simpl.
  { split; [apply list_elem_of_here|].
    intros c ->%list_elem_of_singleton. apply Qcle_refl. }
  destruct (IH (np.Qcmax x y)) as [Hin Hle]. split.
  - apply elem_of_cons in Hin as [Hin|Hin]; [|by do 2 apply list_elem_of_further].
    rewrite Hin. unfold np.Qcmax. destruct (Qcleb x y).
    + apply list_elem_of_further, list_elem_of_here.
    + apply list_elem_of_here.
  - assert (x ≤ np.Qcmax x y ∧ y ≤ np.Qcmax x y)%Qc as [Hx Hy].
    { unfold np.Qcmax. destruct (Qcleb x y) eqn:E.
      - apply Qcleb_le in E. split; [done|apply Qcle_refl].
      - split; [apply Qcle_refl|].
        apply Qclt_le_weak, Qcnot_le_lt. intros H%Qcleb_le. congruence. }
    pose proof (Hle _ (list_elem_of_here _ _)) as H0.
    intros c Hc. apply elem_of_cons in Hc as [->|Hc].
    + by apply Qcle_trans with (np.Qcmax x y).
    + apply elem_of_cons in Hc as [->|Hc].
      * by apply Qcle_trans with (np.Qcmax x y).
      * by apply Hle, list_elem_of_further.
Qed.

(** The error count kept by the loop of [get_session_statistics] grows by the
    number of records that carry an [error] key, whatever else they hold. *)
Lemma foldlM_session_step_errors (l : list Dict)
    (m m' : gmap string nat) (sc sc' : list value) (e e' : nat) :
  foldlM session_step (m, sc, e) l = Ok (m', sc', e') →
  e' = e + length (filter has_error l).
Proof.
  revert m sc e.
  induction l as [|p l IH]; intros m sc e H.
  { cbn in H. simplify_eq. simpl. lia. }
  cbn [foldlM session_step] in H. rewrite filter_cons.
  destruct (contains p "error") eqn:Ec.
  - apply contains_true in Ec. rewrite decide_True by done.
    cbn [mbind result_bind] in H. apply IH in H. simpl. lia.
  - apply contains_false in Ec. rewrite decide_False by done.
    destruct (getitem p "predicted_species" ≫= as_str) as [s|?]; [|done].
    cbn [mbind result_bind] in H.
    destruct (getitem p "confidence") as [c|?]; [|done].
    cbn [mbind result_bind] in H. by apply IH in H.
Qed.

(** On well-formed records the loop returns: the histogram counts the
    labels of the records without an [error] key, the scores are their
    confidences in log order. *)
Lemma foldlM_session_step_ok (l : list Dict)
    (m : gmap string nat) (sc : list value) (e : nat) :
  Forall (λ p, has_error p ∨ is_logged_prediction p) l →
  let ok := filter (λ p, ¬ has_error p) l in
  ∃ m', foldlM session_step (m, sc, e) l =
          Ok (m', sc ++ (VNum <$> (confidence_of <$> ok)),
              e + length (filter has_error l)) ∧
    ∀ s, m' !! s =
         if decide (count_label s ok = 0) then m !! s
         else Some (default 0 (m !! s) + count_label s ok).
Proof.
  intros H. revert m sc e.
  induction H as [|p l Hp _ IH]; intros m sc e.
  { exists m. simpl. rewrite app_nil_r, Nat.add_0_r. done. }
  cbn [foldlM session_step]. rewrite !filter_cons.
  destruct (decide (has_error p)) as [He|He].
  - rewrite (proj2 (contains_true _ _) He). cbn [mbind result_bind].
    rewrite decide_False by tauto.
    destruct (IH m sc (e + 1)) as (m' & -> & Hm'). exists m'.
    split; [|done]. simpl. do 2 f_equal. lia.
  - rewrite (proj2 (contains_false _ _) He).
    rewrite decide_True by done.
    destruct Hp as [?|(s & c & Hs & Hc)]; [done|].
    rewrite (getitem_Some _ _ _ Hs), (getitem_Some _ _ _ Hc).
    cbn [mbind result_bind as_str].
    assert (confidence_of p = c) as Hcc by (unfold confidence_of; by rewrite Hc).
    assert (label_of p = Some s) as Hls by (unfold label_of; by rewrite Hs).
    destruct (IH (<[s := default 0 (m !! s) + 1]> m) (sc ++ [VNum c]) e)
      as (m' & -> & Hm').
    exists m'. split.
    { rewrite !fmap_cons, Hcc, <- app_assoc. done. }
    intros s'. rewrite Hm', count_label_cons, Hls.
    destruct (decide (s = s')) as [->|Hne].
    + rewrite lookup_insert_eq.
      destruct (decide (Some s' = Some s')); [|done]. simpl.
      destruct (decide (count_label s' _ = 0)) as [->|?]; f_equal; lia.
    + rewrite lookup_insert_ne by done.
      destruct (decide (Some s = Some s')); [congruence|]. done.
Qed.

Lemma asarray_VNum (xs : list Qc) : np.asarray (VNum <$> xs) = Ok xs.
Proof.
  unfold np.asarray. induction xs as [|x xs IH]; [done|].
  rewrite fmap_cons. cbn [mapM as_float mbind result_bind]. by rewrite IH.
Qed.

Section LoggerProperties.

Variable sqrt : Qc → Qc.

(** C10. Whatever records the session log holds, each with or without an
    [error] key: when [get_session_statistics] returns, it returns the full
    dict, in which the total is the number of records, the error count is
    the number of records that carry an [error] key, and the total is the
    successful count plus the error count; and it does return when every
    record without an [error] key has a label and a confidence. *)
Theorem session_counts_add_up (lg : PredictionLogger) (fs : files)
    (session_file : option string) (records : list Dict) :
  fs !! session_log_file lg session_file = Some records →
  (∀ r, get_session_statistics sqrt lg fs session_file = Ok r →
     ∃ s, r = StatsDict s ∧
       session_total_predictions s = length records ∧
       session_errors s = length (filter has_error records) ∧
       Z.of_nat (session_total_predictions s) =
         (session_successful_predictions s + Z.of_nat (session_errors s))%Z) ∧
  (Forall (λ p, has_error p ∨ is_logged_prediction p) records →
   ∃ s, get_session_statistics sqrt lg fs session_file = Ok (StatsDict s)).
Proof.
  intros Hfile. unfold get_session_statistics. rewrite Hfile. split.
  - intros r Hr.
    destruct (foldlM session_step (∅, [], 0) records)
      as [[[m sc] e]|?] eqn:Hfold; [|done].
    apply foldlM_session_step_errors in Hfold. simpl in Hfold.
    cbn [mbind result_bind] in Hr.
    destruct (match sc with [] => Ok 0%Qc | _ :: _ => np.mean sc end);
      [|done]; cbn [mbind result_bind] in Hr.
    destruct (match sc with [] => Ok 0%Qc | _ :: _ => np.min sc end);
      [|done]; cbn [mbind result_bind] in Hr.
    destruct (match sc with [] => Ok 0%Qc | _ :: _ => np.max sc end);
      [|done]; cbn [mbind result_bind] in Hr.
    destruct (match sc with [] => Ok 0%Qc | _ :: _ => np.std sqrt sc end);
      [|done]; cbn [mbind result_bind] in Hr.
    simplify_eq. eexists. split; [done|]. simpl. split_and!; [done..|lia].
  - intros Hwf.
    destruct (foldlM_session_step_ok records ∅ [] 0 Hwf) as (m' & -> & _).
    cbn [mbind result_bind]. rewrite app_nil_l.
    destruct (confidence_of <$> filter (λ p, ¬ has_error p) records)
      as [|x xs].
    + eexists. done.
    + unfold np.mean, np.min, np.max, np.std.
      rewrite (asarray_VNum (x :: xs)). rewrite fmap_cons.
      cbn [mbind result_bind]. eexists. done.
Qed.

(** C6, as the code has it. [get_session_statistics] is a function of
    what the log file holds and of nothing else: any logger and file system
    with the same content at the file give the same result, and after
    [log_batch] the file holds the earlier records followed by the logged
    ones. When the file does not exist, as for a session in which nothing
    was logged, the result is the empty dict. When the file exists and its
    records are well formed, the result is the full dict: the number of
    records, of records without an [error] key and of records with one; the
    mean, minimum, maximum and standard deviation of the confidences of
    the records without an [error] key, all 0 when there is none; and the
    number of records per label, an empty histogram when there is none. *)
Theorem session_statistics_read_the_log (lg : PredictionLogger) (fs : files)
    (session_file : option string) :
  let log_file := session_log_file lg session_file in
  (∀ lg' fs' session_file',
     fs' !! session_log_file lg' session_file' = fs !! log_file →
     get_session_statistics sqrt lg' fs' session_file' =
     get_session_statistics sqrt lg fs session_file) ∧
  (∀ ps, log_batch lg fs ps !! current_session_path lg =
         if ps is [] then fs !! current_session_path lg
         else Some (default [] (fs !! current_session_path lg) ++ ps)) ∧
  (fs !! log_file = None →
   get_session_statistics sqrt lg fs session_file = Ok EmptyDict) ∧
  (∀ records,
     fs !! log_file = Some records →
     Forall (λ p, has_error p ∨ is_logged_prediction p) records →
     let ok := filter (λ p, ¬ has_error p) records in
     let confs := confidence_of <$> ok in
     let n := Qc_of_nat (length ok) in
     ∃ s, get_session_statistics sqrt lg fs session_file = Ok (StatsDict s) ∧
       session_total_predictions s = length records ∧
       session_successful_predictions s = Z.of_nat (length ok) ∧
       session_errors s = length (filter has_error records) ∧
       (∀ label, session_species_distribution s !! label =
                 if decide (count_label label ok = 0) then None
                 else Some (count_label label ok)) ∧
       (ok = [] →
        session_average_confidence s = 0%Qc ∧
        session_min_confidence s = 0%Qc ∧
        session_max_confidence s = 0%Qc ∧
        session_std_confidence s = 0%Qc ∧
        session_species_distribution s = ∅) ∧
       (ok ≠ [] →
        let mu := (Qcsum confs / n)%Qc in
        session_average_confidence s = mu ∧
        session_min_confidence s ∈ confs ∧
        (∀ c, c ∈ confs → (session_min_confidence s ≤ c)%Qc) ∧
        session_max_confidence s ∈ confs ∧
        (∀ c, c ∈ confs → (c ≤ session_max_confidence s)%Qc) ∧
        session_std_confidence s =
          sqrt (Qcsum ((λ c, (c - mu) * (c - mu)) <$> confs) / n)%Qc)).
Proof.
  intros log_file. split_and!.
  - intros lg' fs' session_file' H. unfold get_session_statistics.
    fold log_file. by rewrite H.
  - apply log_batch_lookup.
  - intros H. unfold get_session_statistics. fold log_file. by rewrite H.
  - intros records Hfile Hwf. cbv zeta.
    unfold get_session_statistics. fold log_file. rewrite Hfile.
    destruct (foldlM_session_step_ok records ∅ [] 0 Hwf) as (m' & -> & Hm').
    cbn [mbind result_bind]. rewrite app_nil_l.
    pose proof (filter_has_error_length records) as Hlen.
    remember (filter (λ p, ¬ has_error p) records) as ok eqn:Hok.
    clear Hok.
    assert (∀ label, m' !! label =
              if decide (count_label label ok = 0) then None
              else Some (count_label label ok)) as Hhist.
    { intros label. rewrite Hm', lookup_empty. simpl.
      by destruct (decide (count_label label ok = 0)). }
    clear Hm'.
    destruct ok as [|p ok'].
    + simpl in Hlen.
      eexists. split; [done|]. simpl. split_and!; try done; try lia.
      intros _. split_and!; try done.
      apply map_eq. intros label. by rewrite Hhist, lookup_empty.
    + remember (p :: ok') as ok eqn:Eok.
      remember (confidence_of <$> ok) as confs eqn:Ec.
      assert (confs = confidence_of p :: (confidence_of <$> ok')) as Ec'
        by (by rewrite Ec, Eok).
      assert (length confs = length ok) as Hlc
        by (by rewrite Ec, length_fmap).
      clear Ec. destruct confs as [|c0 cs]; [done|]. clear Ec'.
      destruct (foldl_Qcmin_spec cs c0) as [Hmin1 Hmin2].
      destruct (foldl_Qcmax_spec cs c0) as [Hmax1 Hmax2].
      unfold np.mean, np.min, np.max, np.std.
      rewrite (asarray_VNum (c0 :: cs)). rewrite fmap_cons.
      cbn [mbind result_bind].
      eexists. split; [done|]. simpl.
      split_and!; try done; try lia.
      { intros E. by rewrite Eok in E. }
      intros _. unfold np.var. simpl in Hlc |- *. rewrite <- Hlc.
      split_and!; done.
Qed.

End LoggerProperties.

(** ** [Trainer.fit] *)

Lemma unfreeze_flags_length (a b : WildlifeModel) :
  length (requires_grad a) = length (requires_grad b) →
  requires_grad (unfreeze_backbone a) = requires_grad (unfreeze_backbone b).
Proof.
  unfold unfreeze_backbone. simpl.
  generalize (requires_grad a) (requires_grad b). clear a b.
  induction l as [|x l IH]; intros [|y k] H; simplify_eq/=; [done|].
  f_equal. by apply IH.
Qed.

Lemma freeze_flags_length (m : WildlifeModel) :
  length (requires_grad (freeze_backbone m)) = length (requires_grad m).
Proof.
  unfold freeze_backbone. simpl.
  rewrite length_app, length_fmap, length_take, length_drop. lia.
Qed.

Lemma unfreeze_flags_same_length (m : WildlifeModel) :
  length (requires_grad (unfreeze_backbone m)) = length (requires_grad m).
Proof. unfold unfreeze_backbone. simpl. by rewrite length_fmap. Qed.

Lemma take_seqZ (j : nat) (m len : Z) :
  take j (seqZ m len) = seqZ m (Z.of_nat (j `min` Z.to_nat len)).
Proof.
  apply list_eq. intros i.
  destruct (decide (i < j `min` Z.to_nat len)) as [Hi|Hi].
  - rewrite lookup_take_lt by lia. rewrite !lookup_seqZ_lt by lia. done.
  - rewrite (lookup_seqZ_ge _ (Z.of_nat _)) by lia.
    destruct (decide (i < j)).
    + rewrite lookup_take_lt by lia. apply lookup_seqZ_ge. lia.
    + apply lookup_take_ge. lia.
Qed.


Lemma improves_spec (prev : list Qc) (v : Qc) :
  improves prev v = true ↔ ∀ x, x ∈ prev → (v < x)%Qc.
Proof.
  unfold improves. rewrite forallb_forall. split.
  - intros H x Hx. apply Qcltb_lt, H, list_elem_of_In, Hx.
  - intros H x Hx. apply Qcltb_lt, H, list_elem_of_In, Hx.
Qed.

Lemma improving_at_app_l (losses : list Qc) (v : Qc) (k : nat) :
  k < length losses →
  improving_at (losses ++ [v]) k = improving_at losses k.
Proof.
  intros Hk. unfold improving_at.
  rewrite lookup_app_l by done. rewrite take_app_le by lia. done.
Qed.

Lemma improving_at_app_r (losses : list Qc) (v : Qc) :
  improving_at (losses ++ [v]) (length losses) = improves losses v.
Proof.
  unfold improving_at.
  rewrite lookup_app_r, Nat.sub_diag by lia. simpl.
  by rewrite take_app_length.
Qed.


Section TrainerProperties.

Variable run_epoch : Z → list bool → EpochMetrics.
Variable freeze : bool.
Variable unfreeze_at_epoch : Z.

Local Abbreviation fit_body := (fit_body run_epoch freeze unfreeze_at_epoch).
Local Abbreviation fit_loop := (fit_loop run_epoch freeze unfreeze_at_epoch).
Local Abbreviation run_losses := (run_losses run_epoch).

(** The rule of the loop: a property of the epochs gone through, the state
    and the way the last pass ended, that holds when the loop starts and
    that each pass started after a [Continue] carries over, holds when the
    loop ends, for the epochs it went through: all of them unless the last
    pass ended in a [Break]. *)
Lemma fit_loop_rule (I : list Z → FitState → flow → Prop) :
  (∀ done st e, I done st Continue →
     I (done ++ [e]) (fit_body e st).1 (fit_body e st).2) →
  ∀ es done st, I done st Continue →
    ∃ j fl, j ≤ length es ∧
      I (done ++ take j es) (fit_loop es st) fl ∧
      (fl = Continue → j = length es).
Proof.
  intros Hstep es.
  induction es as [|e es IH]; intros done st HI.
  { exists 0, Continue. simpl. rewrite app_nil_r. done. }
  specialize (Hstep done st e HI). simpl.
  destruct (fit_body e st) as [st' [|]]; simpl in Hstep.
  - destruct (IH _ _ Hstep) as (j & fl & Hj & HIj & Hfl).
    exists (S j), fl. simpl. rewrite <- app_assoc in HIj. simpl in HIj.
    split_and!; [lia|done|]. intros ?. f_equal. auto.
  - exists 1, Break. simpl. rewrite take_0. split_and!; [lia|done|done].
Qed.

Lemma counter_before_app_l (log : list EpochLog) (ev : EpochLog) (k : nat) :
  k ≤ length log → counter_before (log ++ [ev]) k = counter_before log k.
Proof.
  intros Hk. destruct k as [|j]; [done|]. simpl.
  by rewrite lookup_app_l by lia.
Qed.

Lemma counter_before_app_r (log : list EpochLog) (ev : EpochLog) :
  counter_before (log ++ [ev]) (S (length log)) = log_counter ev.
Proof. simpl. by rewrite lookup_app_r, Nat.sub_diag by lia. Qed.

(** The comparison with [best_val_loss] is the comparison with every loss
    seen so far. *)
Lemma below_best_improves (st : FitState) (h : list EpochMetrics) (v : Qc) :
  stop_inv run_epoch h st Continue →
  below_best v (best_val_loss st) = improves (run_losses st) v.
Proof.
  intros (_ & Hbest & _).
  destruct (improves (run_losses st) v) eqn:E.
  - destruct (best_val_loss st) as [b|]; [|done].
    destruct Hbest as [Hb _]. simpl. apply Qcltb_lt.
    by eapply improves_spec in E.
  - destruct (best_val_loss st) as [b|].
    + destruct Hbest as [_ Hmin]. simpl.
      destruct (Qcltb v b) eqn:Hvb; [|done]. apply Qcltb_lt in Hvb.
      rewrite <- E. symmetry. apply improves_spec. intros x Hx.
      apply Qclt_le_trans with b; auto.
    + rewrite Hbest in E. done.
Qed.

Lemma stop_inv_step (h : list EpochMetrics) (st : FitState) (e : Z) :
  stop_inv run_epoch h st Continue →
  stop_inv run_epoch h (fit_body e st).1 (fit_body e st).2.
Proof.
  intros Hinv.
  pose proof (λ v, below_best_improves st h v Hinv) as Hbb.
  destruct Hinv as (Hhist & Hbest & Hck & Hcnt & Hcur & Hbound & Hflow).
  unfold fit_body.
  set (model' := if (e =? unfreeze_at_epoch)%Z && freeze
                 then unfreeze_backbone (fit_model st) else fit_model st).
  set (m := run_epoch e (requires_grad model')).
  rewrite Hbb.
  set (log := epoch_log st) in *. set (losses := run_losses st) in *.
  assert (length losses = length log) as Hll
    by (unfold losses; unfold run_losses; by rewrite length_fmap).
  assert (∀ c, run_losses
                 (mkFitState model' (history st ++ [m]) [] None 0
                    (log ++ [mkEpochLog e (requires_grad model') c]) []) =
               losses ++ [val_loss m]) as Hlosses.
  { intros c. unfold run_losses. simpl. by rewrite fmap_app. }
  assert (∀ k ev c, (log ++ [mkEpochLog e (requires_grad model') c]) !! k = Some ev →
            S k < length (log ++ [mkEpochLog e (requires_grad model') c]) →
            log_counter ev < max_patience) as Hbound'.
  { intros k ev c Hk Hlt. rewrite length_app in Hlt. simpl in Hlt.
    rewrite lookup_app_l in Hk by lia.
    destruct (decide (S k < length log)) as [?|Hlast]; [by eapply Hbound|].
    assert (length log = S k) as Hn by lia.
    rewrite Hn in Hcur. simpl in Hcur. rewrite Hk in Hcur. simpl in Hcur.
    by rewrite <- Hcur. }
  destruct (improves losses (val_loss m)) eqn:Himp.
  - (* the loss improves: checkpoint, counter back to 0 *)
    unfold stop_inv. cbn [fst snd history best_val_loss checkpoints
      patience_counter epoch_log].
    unfold run_losses. cbn [epoch_log]. fold log.
    rewrite !fmap_app. cbn [fmap list_fmap log_epoch log_flags]. fold m.
    change ((λ ev, val_loss (run_epoch (log_epoch ev) (log_flags ev))) <$> log)
      with losses.
    split; [|split; [|split; [|split; [|split; [|split]]]]].
    + by rewrite Hhist, <- app_assoc.
    + split; [apply elem_of_app; right; apply list_elem_of_here|].
      intros x [Hx| ->%list_elem_of_singleton]%elem_of_app; [|apply Qcle_refl].
      apply Qclt_le_weak. by eapply improves_spec in Himp.
    + intros e'. rewrite elem_of_app, list_elem_of_singleton, Hck. split.
      * intros [(k & ev & Hk & He & Hi)| ->].
        -- exists k, ev. apply lookup_lt_Some in Hk as Hlt.
           rewrite lookup_app_l, improving_at_app_l by lia. done.
        -- exists (length log), (mkEpochLog e (requires_grad model') 0).
           rewrite lookup_app_r, Nat.sub_diag by lia.
           rewrite <- Hll, improving_at_app_r. done.
      * intros (k & ev & Hk & He & Hi).
        apply lookup_app_Some in Hk as [Hk|[Hge Hk]].
        -- left. exists k, ev. apply lookup_lt_Some in Hk as Hlt.
           rewrite improving_at_app_l in Hi by lia. done.
        -- right. apply list_lookup_singleton_Some in Hk as [_ <-]. done.
    + intros k ev Hk. apply lookup_app_Some in Hk as [Hk|[Hge Hk]].
      * apply lookup_lt_Some in Hk as Hlt.
        rewrite improving_at_app_l, counter_before_app_l by lia. auto.
      * apply list_lookup_singleton_Some in Hk as [Hk0 <-].
        assert (k = length losses) as -> by lia.
        by rewrite improving_at_app_r, Himp.
    + rewrite length_app. cbn [length].
      replace (length log + 1) with (S (length log)) by lia.
      by rewrite counter_before_app_r.
    + intros k ev. apply Hbound'.
    + unfold max_patience. lia.
  - (* no improvement: the counter goes up by one *)
    unfold stop_inv. cbn [fst snd history best_val_loss checkpoints
      patience_counter epoch_log].
    unfold run_losses. cbn [epoch_log]. fold log.
    rewrite !fmap_app. cbn [fmap list_fmap log_epoch log_flags]. fold m.
    change ((λ ev, val_loss (run_epoch (log_epoch ev) (log_flags ev))) <$> log)
      with losses.
    split; [|split; [|split; [|split; [|split; [|split]]]]].
    + by rewrite Hhist, <- app_assoc.
    + destruct (best_val_loss st) as [b|].
      * destruct Hbest as [Hb Hmin]. split; [apply elem_of_app; by left|].
        intros x [Hx| ->%list_elem_of_singleton]%elem_of_app; [auto|].
        apply Qcnot_lt_le. intros Hlt.
        assert (improves losses (val_loss m) = true); [|congruence].
        apply improves_spec. intros y Hy.
        apply Qclt_le_trans with b; auto.
      * fold losses in Hbest. rewrite Hbest in Himp. done.
    + intros e'. rewrite Hck. split.
      * intros (k & ev & Hk & He & Hi).
        exists k, ev. apply lookup_lt_Some in Hk as Hlt.
        rewrite lookup_app_l, improving_at_app_l by lia. done.
      * intros (k & ev & Hk & He & Hi).
        apply lookup_app_Some in Hk as [Hk|[Hge Hk]].
        -- exists k, ev. apply lookup_lt_Some in Hk as Hlt.
           rewrite improving_at_app_l in Hi by lia. done.
        -- apply list_lookup_singleton_Some in Hk as [Hk0 _].
           assert (k = length losses) as -> by lia.
           rewrite improving_at_app_r in Hi. congruence.
    + intros k ev Hk. apply lookup_app_Some in Hk as [Hk|[Hge Hk]].
      * apply lookup_lt_Some in Hk as Hlt.
        rewrite improving_at_app_l, counter_before_app_l by lia. auto.
      * apply list_lookup_singleton_Some in Hk as [Hk0 <-].
        assert (k = length losses) as -> by lia.
        rewrite improving_at_app_r, Himp. cbn [log_counter].
        rewrite Hll, counter_before_app_l by lia. lia.
    + rewrite length_app. cbn [length].
      replace (length log + 1) with (S (length log)) by lia.
      by rewrite counter_before_app_r.
    + intros k ev. apply Hbound'.
    + unfold max_patience in *. case_bool_decide; lia.
Qed.

Lemma phase_inv_step (m : WildlifeModel) (done : list Z) (st : FitState) (e : Z) :
  phase_inv m freeze unfreeze_at_epoch done st →
  phase_inv m freeze unfreeze_at_epoch (done ++ [e]) (fit_body e st).1.
Proof.
  intros (Hdone & Hflags & Hcalls & Hlog).
  set (start := requires_grad (if freeze then freeze_backbone m else m)) in *.
  set (flags_after := λ es : list Z,
         if freeze && bool_decide (unfreeze_at_epoch ∈ es)
         then requires_grad (unfreeze_backbone m) else start) in *.
  set (model' := if (e =? unfreeze_at_epoch)%Z && freeze
                 then unfreeze_backbone (fit_model st) else fit_model st).
  assert (length (requires_grad (fit_model st)) = length (requires_grad m))
    as Hlen.
  { rewrite Hflags. unfold flags_after, start.
    destruct (freeze && bool_decide _);
      [apply unfreeze_flags_same_length|].
    destruct freeze; [apply freeze_flags_length|done]. }
  assert (requires_grad model' = flags_after (done ++ [e])) as Hmodel'.
  { unfold model', flags_after.
    destruct (Z.eqb_spec e unfreeze_at_epoch) as [->|Hne]; destruct freeze;
      simpl; try done.
    - rewrite bool_decide_eq_true_2 by (apply elem_of_app; right; apply list_elem_of_here).
      by apply unfreeze_flags_length.
    - rewrite Hflags. unfold flags_after. simpl.
      assert (unfreeze_at_epoch ∈ done ++ [e] ↔ unfreeze_at_epoch ∈ done) as Hiff.
      { rewrite elem_of_app, list_elem_of_singleton. split; [|tauto].
        intros [?|?]; [done|congruence]. }
      by rewrite (bool_decide_ext _ _ Hiff). }
  assert (length (epoch_log st) = length done) as Hll
    by (by rewrite <- Hdone, length_fmap).
  assert (epoch_log (fit_body e st).1 =
          epoch_log st ++ [mkEpochLog e (requires_grad model')
                             (patience_counter (fit_body e st).1)] ∧
          fit_model (fit_body e st).1 = model' ∧
          unfreeze_calls (fit_body e st).1 =
            if (e =? unfreeze_at_epoch)%Z && freeze
            then unfreeze_calls st ++ [e] else unfreeze_calls st)
    as (Elog & Emodel & Ecalls).
  { unfold fit_body. fold model'. by destruct (below_best _ _). }
  unfold phase_inv. fold start. fold flags_after.
  rewrite Elog, Emodel, Ecalls. split_and!.
  - by rewrite fmap_app, Hdone.
  - done.
  - rewrite Hcalls. destruct freeze; [|by rewrite andb_false_r].
    rewrite andb_true_r, filter_app, filter_cons, filter_nil.
    destruct (Z.eqb_spec e unfreeze_at_epoch) as [->|Hne].
    + by rewrite decide_True.
    + rewrite decide_False by done. by rewrite app_nil_r.
  - intros k ev Hk. apply lookup_app_Some in Hk as [Hk|[Hge Hk]].
    + apply lookup_lt_Some in Hk as Hlt.
      rewrite take_app_le by lia. auto.
    + apply list_lookup_singleton_Some in Hk as [Hk0 <-].
      rewrite take_ge by (rewrite length_app; simpl; lia). done.
Qed.

(** What a whole run of [fit] establishes. *)
Lemma fit_establishes (m : WildlifeModel) (h : list EpochMetrics) (epochs : Z) :
  let st := fit run_epoch m h epochs freeze unfreeze_at_epoch in
  let n := length (epoch_log st) in
  ∃ fl, (Z.of_nat n ≤ Z.max 0 epochs)%Z ∧
    phase_inv m freeze unfreeze_at_epoch (seqZ 1 (Z.of_nat n)) st ∧
    stop_inv run_epoch h st fl ∧
    (fl = Continue → Z.of_nat n = Z.max 0 epochs).
Proof.
  intros st n.
  destruct (fit_loop_rule
    (λ done st fl, phase_inv m freeze unfreeze_at_epoch done st ∧
                   stop_inv run_epoch h st fl))
    with (es := seqZ 1 epochs) (done := @nil Z)
         (st := fit_start m h freeze)
    as (j & fl & Hj & [Hphase Hstop] & Hfl).
  - intros done st' e [Hp Hs]. split.
    + by apply phase_inv_step.
    + by eapply stop_inv_step.
  - split.
    + unfold phase_inv. simpl. split_and!; try done; by destruct freeze.
    + unfold stop_inv. simpl. split_and!; try done.
      * by rewrite app_nil_r.
      * intros e. split; [by intros ?%elem_of_nil|].
        by intros (k & ev & ? & _).
      * unfold max_patience. lia.
  - fold (fit run_epoch m h epochs freeze unfreeze_at_epoch) in Hphase, Hstop.
    fold st in Hphase, Hstop. rewrite app_nil_l, take_seqZ in Hphase.
    rewrite length_seqZ in Hj, Hfl.
    assert (n = j `min` Z.to_nat epochs) as Hn.
    { destruct Hphase as (Hdone & _). apply (f_equal length) in Hdone.
      rewrite length_fmap, length_seqZ in Hdone. unfold n. lia. }
    rewrite <- Hn in Hphase.
    exists fl. split_and!; [lia|done|done|].
    intros Hc. specialize (Hfl Hc). lia.
Qed.

End TrainerProperties.





(** ** The statements at concrete inputs *)

(** Of a batch of three images whose second does not decode, the second item
    is the error record and the two others are predictions. *)
Lemma predict_batch_witness :
  length demo_results = 3 ∧
  demo_results !! 1 =
    Some (<["image_path" := VStr "broken.jpg"]>
            (<["error" := VStr "cannot identify image file 'broken.jpg'"]> ∅)) ∧
  label_of <$> demo_results = [Some "Lion"; None; Some "Lion"].
Proof.
  pose proof (predict_batch_isolates_failures
    demo_open demo_transforms demo_forward demo_softmax demo_now
    demo_predictor 0 ["lion.jpg"; "broken.jpg"; "zebra.jpg"]) as (Hlen & _ & Hitem).
  split; [exact Hlen|]. split; [|by vm_compute].
  exact (Hitem 1 "broken.jpg" eq_refl).
Defined.

(** The loaded demo predictor ignores a second [load_model]; a predictor
    fresh from [init] refuses to predict. *)
Lemma predictor_load_state_machine_witness :
  load_model (λ _, Ok ()) (λ m _, Ok m) demo_predictor (λ _, Ok ()) =
    (Ok (), demo_predictor) ∧
  predict_single demo_open demo_transforms demo_forward demo_softmax demo_now
    (init "models/wildlife_model.pt" demo_mapping (ratio 1 2)) 0 "lion.jpg" =
    (Raise (RuntimeError "Model not loaded. Call load_model() first."),
     init "models/wildlife_model.pt" demo_mapping (ratio 1 2), 0).
Proof.
  split.
  - exact (proj1 (proj1 (predictor_load_state_machine
      (λ _, Ok ()) (λ m _, Ok m) demo_open demo_transforms demo_forward
      demo_softmax demo_now demo_predictor 0)) (λ _, Ok ())).
  - exact (proj1 (predictor_load_state_machine
      (λ _, Ok ()) (λ m _, Ok m) demo_open demo_transforms demo_forward
      demo_softmax demo_now
      (init "models/wildlife_model.pt" demo_mapping (ratio 1 2)) 0) "lion.jpg").
Defined.


(** The statistics of the demo batch: two predictions, both confident, one
    error. *)
Lemma statistics_total_and_exact_witness :
  ∃ st, get_prediction_statistics demo_results = Ok st ∧
    total_predictions st = 2 ∧ errors st = 1%Z.
Proof.
  destruct (statistics_total_and_exact demo_results)
    as (st & Hst & Htotal & _ & _ & _ & _ & _ & Herrors).
  - constructor; [|constructor; [|constructor; [|constructor]]].
    + right. by exists "Lion", (ratio 50 61), true.
    + left. by eexists.
    + right. by exists "Lion", (ratio 50 61), true.
  - exists st. split_and!; [exact Hst|exact Htotal|exact Herrors].
Defined.


(** The session statistics of the demo log: three records, one error. *)
Lemma session_counts_add_up_witness :
  ∃ s, get_session_statistics (λ x, x) demo_logger demo_files None =
         Ok (StatsDict s) ∧
    session_total_predictions s = 3 ∧ session_errors s = 1.
Proof.
  destruct (session_counts_add_up (λ x, x) demo_logger demo_files None demo_results)
    as [Hret Hok].
  - by vm_compute.
  - destruct Hok as [s Hs].
    + constructor; [|constructor; [|constructor; [|constructor]]].
      * right. by exists "Lion", (ratio 50 61).
      * left. by eexists.
      * right. by exists "Lion", (ratio 50 61).
    + exists s. destruct (Hret _ Hs) as (s' & [= <-] & Htotal & Herr & _).
      split_and!; [exact Hs|exact Htotal|exact Herr].
Defined.

(** The same session read back in full, and a session without a file. *)
Lemma session_statistics_read_the_log_witness :
  (∃ s, get_session_statistics (λ x, x) demo_logger demo_files None =
          Ok (StatsDict s) ∧
     session_successful_predictions s = 2%Z ∧
     session_species_distribution s !! "Lion" = Some 2) ∧
  get_session_statistics (λ x, x) demo_logger ∅ None = Ok EmptyDict.
Proof.
  split.
  - destruct (session_statistics_read_the_log (λ x, x) demo_logger demo_files None)
      as (_ & _ & _ & Hfull).
    destruct (Hfull demo_results) as (s & Hs & _ & Hsucc & _ & Hhist & _).
    + by vm_compute.
    + constructor; [|constructor; [|constructor; [|constructor]]].
      * right. by exists "Lion", (ratio 50 61).
      * left. by eexists.
      * right. by exists "Lion", (ratio 50 61).
    + exists s. split_and!; [exact Hs|exact Hsucc|].
      rewrite Hhist. by vm_compute.
  - apply (session_statistics_read_the_log (λ x, x) demo_logger ∅ None).
    by vm_compute.
Defined.

(** C6, as the claim states it, fails on a session in which nothing was
    logged: no file exists, and the result is the empty dict, not a dict of
    zero counts. *)
Lemma fresh_session_statistics_are_the_empty_dict :
  log_batch demo_logger ∅ [] !! current_session_path demo_logger = None ∧
  get_session_statistics (λ x, x) demo_logger (log_batch demo_logger ∅ []) None =
    Ok EmptyDict ∧
  get_session_statistics (λ x, x) demo_logger (log_batch demo_logger ∅ []) None ≠
    Ok (StatsDict (mkSessionStatistics 0 0 0 0 0 0 0 ∅)).
Proof. by vm_compute. Qed.



(** ** Further checks on concrete inputs *)

(** Scores 5, 1 and 0.1 for Lion, Elephant and Zebra, threshold 0.5. *)
Example predict_single_lion :
  ∃ d, (demo_predict_single demo_predictor 0 "lion.jpg").1.1 = Ok d ∧
    d !! "predicted_species" = Some (VStr "Lion") ∧
    d !! "is_confident" = Some (VBool true) ∧
    match d !! "top_predictions" with
    | Some (VTop l) => l.*1
    | _ => []
    end = ["Lion"; "Elephant"; "Zebra"].
Proof. eexists. split; [by vm_compute|]. by vm_compute. Qed.

(** Equal probabilities at indices 0 and 2: index 0 comes first. *)
Example topk_keeps_index_order_among_equals :
  torch.topk [ratio 1 2; ratio 1 3; ratio 1 2; ratio 2 3] 3 =
  Ok [(ratio 2 3, 3); (ratio 1 2, 0); (ratio 1 2, 2)].
Proof. by vm_compute. Qed.

(** No results: no division, zero rates. *)
Example statistics_of_nothing :
  get_prediction_statistics [] = Ok (mkStats 0 0 0 0 ∅ 0).
Proof. by vm_compute. Qed.

(** One snapshot is not enough to speak of drift. *)
Example drift_needs_two_snapshots :
  detect_performance_drift
    (mkMonitor "data/metrics" [demo_snapshot (ratio 90 100)]) (ratio 5 100) =
  Ok (mkDriftReport false (Some "Insufficient data") None).
Proof. by vm_compute. Qed.

(** A directory named like an image is listed too, in both modes, and a
    file two levels down only by the recursive listing. *)
Example image_paths_of_a_tree :
  let content :=
    [pathlib.File "a.png"; pathlib.File "notes.txt";
     pathlib.Dir "cats.jpg" [pathlib.Dir "big" [pathlib.File "b.jpeg"]]] in
  image_paths "photos" content false = ["photos/a.png"; "photos/cats.jpg"] ∧
  image_paths "photos" content true =
    ["photos/cats.jpg"; "photos/cats.jpg/big/b.jpeg"; "photos/a.png"].
Proof. by vm_compute. Qed.

(** Twelve epochs of falling validation loss, unfreezing at epoch 10: one
    call to [unfreeze_backbone], epoch 9 trains frozen, epochs 10 to 12
    unfrozen, and a checkpoint at every epoch. *)
Example fit_unfreezes_at_epoch_10 :
  let st := fit (λ epoch _, mkEpochMetrics 1 1 (ratio (100 - epoch) 100) 1)
              demo_model [] 12 true 10 in
  unfreeze_calls st = [10%Z] ∧
  log_flags <$> epoch_log st !! 8 = Some [false; false; true] ∧
  log_flags <$> drop 9 (epoch_log st) = replicate 3 [true; true; true] ∧
  ckpt_epoch <$> checkpoints st = seqZ 1 12.
Proof. by vm_compute. Qed.

(** * Further properties *)

(** ** Predictor: shapes, states and composition *)

Section PredictorFurther.

Context {Model Weights Image Tensor : Type}.
Variable torch_load : string → result Weights.
Variable load_state_dict : Model → Weights → result Model.
Variable image_open : string → result Image.
Variable transforms : Image → result Tensor.
Variable forward : Model → Tensor → result (list Qc).
Variable softmax : list Qc → list Qc.
Variable isoformat_now : nat → string.

Local Abbreviation Predictor := (@Predictor Model).
Local Abbreviation predict_loaded :=
  (predict_loaded image_open transforms forward softmax).
Local Abbreviation predict_single :=
  (predict_single image_open transforms forward softmax isoformat_now).
Local Abbreviation predict_batch :=
  (predict_batch image_open transforms forward softmax isoformat_now).
Local Abbreviation batch_item :=
  (batch_item image_open transforms forward softmax isoformat_now).
Local Abbreviation load_model := (load_model torch_load load_state_dict).
Local Abbreviation step :=
  (step torch_load load_state_dict image_open transforms forward softmax
     isoformat_now).
Local Abbreviation run :=
  (run torch_load load_state_dict image_open transforms forward softmax
     isoformat_now).

(** The dict of a successful prediction: the path it was asked about, a
    label, a confidence and a flag, and no [error] key. *)
Lemma predict_loaded_shape (p : Predictor) (ts image_path : string) (d : Dict) :
  predict_loaded p ts image_path = Ok d →
  d !! "image_path" = Some (VStr image_path) ∧
  d !! "error" = None ∧
  is_prediction_result d.
Proof.
  unfold predict_loaded.
  destruct (image_open image_path) as [image|]; [|done]; cbn [mbind result_bind].
  destruct (transforms image) as [tensor|]; [|done]; cbn [mbind result_bind].
  destruct (model p) as [m|]; [|done]; cbn [mbind result_bind].
  destruct (forward m tensor) as [outputs|]; [|done]; cbn [mbind result_bind].
  destruct (torch.max (softmax outputs)) as [[conf idx]|]; [|done];
    cbn [mbind result_bind].
  destruct (species_of p idx) as [label|]; [|done]; cbn [mbind result_bind].
  destruct (torch.topk _ _) as [top|]; [|done]; cbn [mbind result_bind].
  destruct (mapM _ top) as [tl|]; [|done]; cbn [mbind result_bind].
  intros [= <-]. split_and!; [done..|].
  by exists label, conf, (Qcleb (confidence_threshold p) conf).
Qed.

Lemma batch_item_shape (p : Predictor) (clock : nat) (image_path : string) :
  let d := batch_item p clock image_path in
  d !! "image_path" = Some (VStr image_path) ∧
  (has_error d ∧ label_of d = None ∨ ¬ has_error d ∧ is_prediction_result d).
Proof.
  unfold batch_item, predict_single.
  destruct (negb (is_loaded p)); simpl.
  { split; [done|]. left. split; [by eexists|done]. }
  destruct (predict_loaded p (isoformat_now clock) image_path) as [d|e] eqn:E;
    simpl.
  - apply predict_loaded_shape in E as (Hpath & Herr & Hres).
    split; [done|]. right. split; [|done].
    unfold has_error. rewrite Herr. by intros [? ?].
  - split; [done|]. left. split; [by eexists|done].
Qed.

(** What holds of every item [predict_batch] can append holds of its
    output, position by position. *)
Lemma predict_batch_Forall2 (P : string → Dict → Prop) (p : Predictor)
    (clock : nat) (image_paths : list string) :
  (∀ p' clock' image_path, P image_path (batch_item p' clock' image_path)) →
  Forall2 P image_paths (predict_batch p clock image_paths).1.1.
Proof.
  intros HP.
  induction image_paths as [|x image_paths IH] using rev_ind; [constructor|].
  rewrite predict_batch_snoc.
  destruct (predict_batch p clock image_paths) as [[results p'] clock'].
  simpl in *. apply Forall2_app; [done|]. by repeat constructor.
Qed.

(** X1. Each item of the list [predict_batch] returns holds, under
    [image_path], the path of the image at its position, and is of one of
    two shapes: an error record, with an [error] key and no label, or a
    prediction, without an [error] key and with label, confidence and
    confidence flag of their types. *)
Theorem predict_batch_items_are_tagged (p : Predictor) (clock : nat)
    (image_paths : list string) :
  Forall2
    (λ image_path d,
       d !! "image_path" = Some (VStr image_path) ∧
       (has_error d ∧ label_of d = None ∨ ¬ has_error d ∧ is_prediction_result d))
    image_paths (predict_batch p clock image_paths).1.1.
Proof.
  apply predict_batch_Forall2. intros p' clock' image_path.
  apply batch_item_shape.
Qed.

(** X2. On a predictor that is not loaded [predict_batch] does not raise: it
    returns one error record per image, each with the "Model not loaded"
    message, and reads no clock. *)
Theorem predict_batch_unloaded (p : Predictor) (clock : nat)
    (image_paths : list string) :
  is_loaded p = false →
  predict_batch p clock image_paths =
    ((λ image_path,
        <["image_path" := VStr image_path]>
          (<["error" := VStr "Model not loaded. Call load_model() first."]> ∅))
       <$> image_paths,
     p, clock).
Proof.
  intros H.
  induction image_paths as [|x image_paths IH] using rev_ind; [done|].
  rewrite predict_batch_snoc, IH, fmap_app.
  unfold batch_item, predict_single. rewrite H. done.
Qed.

Lemma load_model_config (p : Predictor) (model_class : nat → result Model) :
  let p' := (load_model p model_class).2 in
  species_mapping p' = species_mapping p ∧
  confidence_threshold p' = confidence_threshold p ∧
  model_path p' = model_path p ∧
  (is_loaded p' = true → is_loaded p = true ∨ is_Some (model p')).
Proof.
  unfold load_model. destruct (is_loaded p) eqn:Hl; simpl.
  { split_and!; auto. }
  destruct (model_class _) as [m|]; simpl; [|by rewrite Hl].
  destruct (torch_load _) as [w|]; simpl; [|by rewrite Hl].
  destruct (load_state_dict m w) as [m'|]; simpl; [|by rewrite Hl].
  split_and!; auto.
Qed.

(** X3. Whatever operations are called on a predictor since its
    construction: the species mapping, the threshold and the model path are
    those given to the constructor, and when the predictor is loaded it
    holds a model, so that a loaded predictor never fails for want of one. *)
Theorem predictor_reachable_invariant (path : string) (mapping : gmap Z string)
    (threshold : Qc) (clock : nat) (calls : list call) :
  let p := (run (init path mapping threshold, clock) calls).1 in
  species_mapping p = mapping ∧
  confidence_threshold p = threshold ∧
  model_path p = path ∧
  (is_loaded p = true → is_Some (model p)).
Proof.
  simpl.
  assert (∀ (p0 : Predictor) clock0,
            species_mapping p0 = mapping ∧ confidence_threshold p0 = threshold ∧
            model_path p0 = path ∧ (is_loaded p0 = true → is_Some (model p0)) →
            let p := (run (p0, clock0) calls).1 in
            species_mapping p = mapping ∧ confidence_threshold p = threshold ∧
            model_path p = path ∧ (is_loaded p = true → is_Some (model p)))
    as Hrun.
  { unfold run. induction calls as [|c calls' IH]; intros p0 clock0 Hp0; [done|].
    change (foldl step (p0, clock0) (c :: calls'))
      with (foldl step (step (p0, clock0) c) calls').
    destruct (step (p0, clock0) c) as [p1 clock1] eqn:Hs.
    apply IH. pose proof (step_same_predictor torch_load load_state_dict
      image_open transforms forward softmax isoformat_now p0 clock0 c) as Hc.
    rewrite Hs in Hc. destruct c; simpl in Hc; try (by subst p1).
    simpl in Hs. injection Hs as <- _.
    destruct Hp0 as (Hm & Ht & Hpath & Hl).
    destruct (load_model_config p0 model_class) as (Hm' & Ht' & Hpath' & Hl').
    split_and!; [congruence..|].
    intros H. destruct (Hl' H) as [H0|H0]; [|done].
    unfold load_model. rewrite H0. simpl. auto. }
  apply Hrun. simpl. split_and!; done.
Qed.

(** X4. A call of [load_model] on a predictor that is not loaded marks it
    loaded exactly when the call returns; it returns exactly when the model
    class (called with the number of species), [torch.load] and
    [load_state_dict] all succeed, and the predictor then holds the model with
    the weights loaded. After a call that raised, [predict_single] still
    raises the "Model not loaded" error. *)
Theorem load_model_marks_loaded_on_success (p : Predictor)
    (model_class : nat → result Model) :
  is_loaded p = false →
  let r := (load_model p model_class).1 in
  let p' := (load_model p model_class).2 in
  (is_loaded p' = true ↔ r = Ok ()) ∧
  (r = Ok () ↔
   ∃ m w m', model_class (size (species_mapping p)) = Ok m ∧
             torch_load (model_path p) = Ok w ∧
             load_state_dict m w = Ok m' ∧
             model p' = Some m') ∧
  (r ≠ Ok () →
   ∀ clock image_path,
     predict_single p' clock image_path =
       (Raise (RuntimeError "Model not loaded. Call load_model() first."),
        p', clock)).
Proof.
  intros Hl. unfold load_model. rewrite Hl. simpl.
  destruct (model_class _) as [m|e1] eqn:E1; simpl.
  2:{ split_and!.
      - rewrite Hl. split; done.
      - split; [done|]. by intros (? & ? & ? & ? & _).
      - intros _ clock image_path. unfold predict_single. by rewrite Hl. }
  destruct (torch_load _) as [w|e2] eqn:E2; simpl.
  2:{ split_and!.
      - rewrite Hl. split; done.
      - split; [done|]. by intros (? & ? & ? & ? & ? & _).
      - intros _ clock image_path. unfold predict_single. simpl. by rewrite Hl. }
  destruct (load_state_dict m w) as [m'|e3] eqn:E3; simpl.
  2:{ split_and!.
      - rewrite Hl. split; done.
      - split; [done|]. intros (? & ? & ? & ? & ? & ? & _). congruence.
      - intros _ clock image_path. unfold predict_single. simpl. by rewrite Hl. }
  split_and!; [done| |done].
  split; [|done]. intros _. by exists m, w, m'.
Qed.

(** The statistics of any list of well-formed results exist and account
    for every item. *)
Lemma get_prediction_statistics_accounts (predictions : list Dict) :
  Forall (λ p, has_error p ∨ is_prediction_result p) predictions →
  ∃ st, get_prediction_statistics predictions = Ok st ∧
    total_predictions st = length (filter (λ p, ¬ has_error p) predictions) ∧
    errors st = Z.of_nat (length (filter has_error predictions)) ∧
    (∀ s, species_distribution st !! s =
          if decide (count_label s (filter (λ p, ¬ has_error p) predictions) = 0)
          then None
          else Some (count_label s (filter (λ p, ¬ has_error p) predictions))) ∧
    average_confidence st =
      (if decide (length (filter (λ p, ¬ has_error p) predictions) = 0%nat) then 0
       else Qcsum (confidence_of <$> filter (λ p, ¬ has_error p) predictions) /
            Qc_of_nat (length (filter (λ p, ¬ has_error p) predictions)))%Qc.
Proof.
  intros Hwf.
  pose proof (filter_has_error_length predictions) as Hlen.
  assert (Forall is_prediction_result (filter (λ p, ¬ has_error p) predictions))
    as Hvalid.
  { apply Forall_forall. intros p Hp. apply list_elem_of_filter in Hp as [Hne Hp].
    eapply Forall_forall in Hwf; [|done]. tauto. }
  unfold get_prediction_statistics.
  remember (filter (λ p, ¬ has_error p) predictions) as valid eqn:Ev. clear Ev.
  rewrite (filterM_confident valid Hvalid). cbn [mbind result_bind].
  destruct (foldlM_count_step valid ∅ 0%Qc Hvalid) as (m' & -> & Hm').
  cbn [mbind result_bind]. rewrite Qcplus_0_l.
  assert (∀ s, m' !! s = if decide (count_label s valid = 0) then None
                         else Some (count_label s valid)) as Hhist.
  { intros s. rewrite Hm', lookup_empty. simpl.
    by destruct (decide (count_label s valid = 0)). }
  destruct valid as [|v valid'].
  - eexists. split; [done|]. simpl in *. split_and!; try done. lia.
  - cbn [length]. rewrite !truediv_S. cbn [mbind result_bind].
    eexists. split; [done|]. cbn [total_predictions errors species_distribution
      average_confidence]. cbn [length] in Hlen. split_and!; try done. lia.
Qed.

(** X5. The statistics of what [predict_batch] returns always exist, and
    the number of predictions plus the number of errors is the number of
    images given to [predict_batch]. *)
Theorem statistics_of_a_batch_account_for_every_image (p : Predictor)
    (clock : nat) (image_paths : list string) :
  ∃ st, get_prediction_statistics (predict_batch p clock image_paths).1.1 = Ok st ∧
    (Z.of_nat (total_predictions st) + errors st)%Z =
      Z.of_nat (length image_paths).
Proof.
  pose proof (predict_batch_Forall2
    (λ _ d, has_error d ∨ is_prediction_result d) p clock image_paths) as Hall.
  assert (Forall (λ d, has_error d ∨ is_prediction_result d)
            (predict_batch p clock image_paths).1.1) as Hwf.
  { eapply Forall2_Forall_r; [apply Hall|].
    - intros p' clock' image_path.
      destruct (batch_item_shape p' clock' image_path) as [_ [[? _]|[_ ?]]]; auto.
    - apply Forall_forall. auto. }
  destruct (get_prediction_statistics_accounts _ Hwf) as (st & Hst & Ht & He & _).
  exists st. split; [done|]. rewrite Ht, He.
  pose proof (filter_has_error_length (predict_batch p clock image_paths).1.1).
  pose proof (predict_batch_length image_open transforms forward softmax
    isoformat_now p clock image_paths). lia.
Qed.

End PredictorFurther.

(** ** Trainer: flags, length of a run, checkpoints *)

(** X6. [freeze_backbone] keeps the number of parameters, clears the flag
    of every parameter but the last, whose flag it leaves as it was, and
    doing it twice changes nothing more; [unfreeze_backbone] sets every flag,
    whatever was frozen before, so unfreezing after freezing gives the flags
    that unfreezing alone gives. *)
Theorem freeze_and_unfreeze_flags (m : WildlifeModel) :
  let frozen := requires_grad (freeze_backbone m) in
  let n := length (requires_grad m) in
  length frozen = n ∧
  (∀ i, S i < n → frozen !! i = Some false) ∧
  frozen !! (n - 1) = requires_grad m !! (n - 1) ∧
  freeze_backbone (freeze_backbone m) = freeze_backbone m ∧
  requires_grad (unfreeze_backbone m) = replicate n true ∧
  unfreeze_backbone (freeze_backbone m) = unfreeze_backbone m.
Proof.
  destruct m as [ps]. unfold freeze_backbone, unfreeze_backbone. simpl.
  assert (∀ l : list bool, (λ _, true) <$> l = replicate (length l) true) as Hrep.
  { induction l as [|x l IH]; [done|].
    rewrite fmap_cons. cbn [length replicate]. by rewrite IH. }
  assert (length (((λ _, false) <$> take (length ps - 1) ps) ++
                  drop (length ps - 1) ps) = length ps) as Hlen.
  { rewrite length_app, length_fmap, length_take, length_drop. lia. }
  split_and!.
  - done.
  - intros i Hi. rewrite lookup_app_l
      by (rewrite length_fmap, length_take; lia).
    rewrite list_lookup_fmap, lookup_take_lt by lia.
    destruct (lookup_lt_is_Some_2 ps i) as [x ->]; [lia|]. done.
  - destruct ps as [|x ps']; [done|].
    rewrite lookup_app_r by (rewrite length_fmap, length_take; simpl; lia).
    rewrite length_fmap, length_take, lookup_drop. f_equal. simpl. lia.
  - f_equal. rewrite Hlen.
    rewrite take_app_le by (rewrite length_fmap, length_take; lia).
    rewrite drop_app_ge by (rewrite length_fmap, length_take; lia).
    rewrite length_fmap, length_take, drop_drop.
    rewrite take_ge by (rewrite length_fmap, length_take; lia).
    rewrite <- list_fmap_compose. f_equal. f_equal. lia.
  - apply Hrep.
  - f_equal. by rewrite !Hrep, Hlen.
Qed.

Lemma log_counter_bound (run_epoch : Z → list bool → EpochMetrics)
    (h : list EpochMetrics) (st : FitState) (fl : flow) (k : nat) (ev : EpochLog) :
  stop_inv run_epoch h st fl →
  epoch_log st !! k = Some ev → log_counter ev ≤ k.
Proof.
  intros (_ & _ & _ & Hcnt & _). revert ev.
  induction k as [|j IH]; intros ev Hk; rewrite (Hcnt _ _ Hk).
  - unfold improving_at, run_losses. rewrite list_lookup_fmap, Hk. done.
  - destruct (improving_at _ _); [lia|]. simpl.
    destruct (lookup_lt_is_Some_2 (epoch_log st) j) as [ev' Hj];
      [apply lookup_lt_Some in Hk; lia|].
    rewrite Hj. simpl. specialize (IH _ Hj). lia.
Qed.

(** X7. A run of [fit] goes through all the configured epochs or through at
    least six of them: early stopping cannot end it before epoch 6. With a
    configured count below 1 the loop body never runs and the state is the
    one the loop started from; otherwise epoch 1 always saves a checkpoint,
    its loss being compared with infinity. *)
Theorem fit_runs_at_least_six_epochs
    (run_epoch : Z → list bool → EpochMetrics) (m : WildlifeModel)
    (h : list EpochMetrics) (epochs : Z) (freeze : bool) (unfreeze_at_epoch : Z) :
  let st := fit run_epoch m h epochs freeze unfreeze_at_epoch in
  let n := length (epoch_log st) in
  (Z.of_nat n = Z.max 0 epochs ∨ (6 ≤ n ∧ (Z.of_nat n < epochs)%Z)) ∧
  (if decide (epochs ≤ 0)%Z then st = fit_start m h freeze
   else 1%Z ∈ ckpt_epoch <$> checkpoints st).
Proof.
  intros st n.
  destruct (fit_establishes run_epoch freeze unfreeze_at_epoch m h epochs)
    as (fl & Hn & (Hdone & _) & Hstop & Hfl).
  fold st in Hn, Hdone, Hstop, Hfl. fold n in Hn, Hdone, Hfl.
  assert (Z.of_nat n = Z.max 0 epochs ∨ (6 ≤ n ∧ (Z.of_nat n < epochs)%Z)) as Hlen.
  { destruct fl; [left; auto|].
    destruct (decide (Z.of_nat n = Z.max 0 epochs)) as [?|Hne]; [by left|right].
    pose proof Hstop as (_ & _ & _ & _ & Hcur & _ & Hflow).
    fold n in Hcur. unfold max_patience in Hflow.
    destruct n as [|j] eqn:En; [simpl in Hcur; lia|].
    simpl in Hcur.
    destruct (lookup_lt_is_Some_2 (epoch_log st) j) as [ev Hj]; [lia|].
    rewrite Hj in Hcur. simpl in Hcur.
    pose proof (log_counter_bound _ _ _ _ _ _ Hstop Hj). lia. }
  split; [done|].
  destruct (decide (epochs ≤ 0)%Z) as [Hle|Hgt].
  - unfold st, fit. by rewrite seqZ_nil.
  - destruct Hstop as (_ & _ & Hck & _). apply Hck.
    destruct (lookup_lt_is_Some_2 (epoch_log st) 0) as [ev H0]; [fold n; lia|].
    exists 0, ev. split_and!; [done| |].
    + assert ((log_epoch <$> epoch_log st) !! 0 = Some (log_epoch ev)) as H
        by (by rewrite list_lookup_fmap, H0).
      rewrite Hdone in H. apply lookup_seqZ in H. lia.
    + unfold improving_at, run_losses. by rewrite list_lookup_fmap, H0.
Qed.

(** X8. A run of [fit] that did not ask for freezing never calls
    [unfreeze_backbone], whatever the configured epoch: every epoch trains
    with the flags the model came with, and the model has them at the end. *)
Theorem fit_without_freezing_keeps_flags
    (run_epoch : Z → list bool → EpochMetrics) (m : WildlifeModel)
    (h : list EpochMetrics) (epochs : Z) (unfreeze_at_epoch : Z) :
  let st := fit run_epoch m h epochs false unfreeze_at_epoch in
  unfreeze_calls st = [] ∧
  requires_grad (fit_model st) = requires_grad m ∧
  Forall (λ ev, log_flags ev = requires_grad m) (epoch_log st).
Proof.
  intros st.
  destruct (fit_establishes run_epoch false unfreeze_at_epoch m h epochs)
    as (fl & _ & (_ & Hflags & Hcalls & Hlog) & _).
  fold st in Hflags, Hcalls, Hlog. split_and!; [done..|].
  apply Forall_lookup. intros k ev Hk. by rewrite (Hlog k ev Hk).
Qed.

Section CheckpointProperties.

Variable run_epoch : Z → list bool → EpochMetrics.
Variable freeze : bool.
Variable unfreeze_at_epoch : Z.

Local Abbreviation fit_body := (fit_body run_epoch freeze unfreeze_at_epoch).
Local Abbreviation fit_loop := (fit_loop run_epoch freeze unfreeze_at_epoch).

Lemma ckpt_inv_step (h : list EpochMetrics) (done : list Z) (st : FitState) (e : Z) :
  ckpt_inv h done st → ckpt_inv h (done ++ [e]) (fit_body e st).1.
Proof.
  intros (Hlen & Hfiles & Hbest). unfold fit_body.
  set (model' := if (e =? unfreeze_at_epoch)%Z && freeze
                 then unfreeze_backbone (fit_model st) else fit_model st).
  set (m := run_epoch e (requires_grad model')).
  assert (∀ c, c ∈ checkpoints st →
            ∃ k, (done ++ [e]) !! k = Some (ckpt_epoch c) ∧
                 ckpt_history c = take (length h + S k) (history st ++ [m]) ∧
                 val_acc <$> last (ckpt_history c) = Some (ckpt_val_acc c))
    as Hold.
  { intros c Hc. destruct (Hfiles c Hc) as (k & Hk & Hh & Hacc).
    exists k. apply lookup_lt_Some in Hk as Hlt.
    rewrite lookup_app_l by done. rewrite take_app_le by lia. done. }
  destruct (below_best (val_loss m) (best_val_loss st)) eqn:Hb;
    unfold ckpt_inv; cbn [fst history checkpoints best_val_loss].
  - split_and!.
    + rewrite !length_app. simpl. lia.
    + intros c [Hc| ->%list_elem_of_singleton]%elem_of_app; [auto|].
      exists (length done). cbn [ckpt_epoch ckpt_history ckpt_val_acc].
      rewrite lookup_app_r, Nat.sub_diag by lia.
      rewrite take_ge by (rewrite length_app; simpl; lia).
      by rewrite last_snoc.
    + eexists. rewrite last_snoc. split; [done|].
      cbn [ckpt_history]. by rewrite last_snoc.
  - split_and!.
    + rewrite !length_app. simpl. lia.
    + done.
    + destruct (best_val_loss st); [done|]. done.
Qed.

(** What a whole run of [fit] establishes for its checkpoints. *)
Lemma fit_establishes_checkpoints (m : WildlifeModel) (h : list EpochMetrics)
    (epochs : Z) :
  let st := fit run_epoch m h epochs freeze unfreeze_at_epoch in
  let n := length (epoch_log st) in
  ∃ fl, ckpt_inv h (seqZ 1 (Z.of_nat n)) st ∧ stop_inv run_epoch h st fl.
Proof.
  intros st n.
  destruct (fit_loop_rule run_epoch freeze unfreeze_at_epoch
      (λ done st fl, phase_inv m freeze unfreeze_at_epoch done st ∧
                     stop_inv run_epoch h st fl ∧ ckpt_inv h done st))
      with (es := seqZ 1 epochs) (done := @nil Z)
           (st := fit_start m h freeze)
      as (j & fl & Hj & (Hphase & Hstop & Hckpt) & Hfl).
  - intros done st' e (Hp & Hs & Hc). split_and!.
    + by apply phase_inv_step.
    + by eapply stop_inv_step.
    + by apply ckpt_inv_step.
  - split_and!.
    + unfold phase_inv. simpl. split_and!; try done; by destruct freeze.
    + unfold stop_inv. simpl. split_and!; try done.
      * by rewrite app_nil_r.
      * intros e. split; [by intros ?%elem_of_nil|].
        by intros (k & ev & ? & _).
      * unfold max_patience. lia.
    + unfold ckpt_inv. simpl. split_and!; [lia| |done].
      by intros c ?%elem_of_nil.
  - fold (fit run_epoch m h epochs freeze unfreeze_at_epoch) in Hphase, Hstop, Hckpt.
    fold st in Hphase, Hstop, Hckpt.
    rewrite app_nil_l, take_seqZ in Hphase, Hckpt.
    assert (n = j `min` Z.to_nat epochs) as Hn.
    { destruct Hphase as (Hdone & _). apply (f_equal length) in Hdone.
      rewrite length_fmap, length_seqZ in Hdone. unfold n. lia. }
    rewrite <- Hn in Hckpt. by exists fl.
Qed.

End CheckpointProperties.

(** X9. In a run of [fit], every checkpoint file is that of an epoch the run
    went through, stores the history as it stood at the end of that epoch
    (the history the run started from and one entry per epoch up to it) and
    carries the validation accuracy of that epoch; and when the run went
    through at least one epoch, the last file written is the one of the
    smallest validation loss of the run, which is [best_val_loss]. *)
Theorem checkpoints_store_history_and_best
    (run_epoch : Z → list bool → EpochMetrics) (m : WildlifeModel)
    (h : list EpochMetrics) (epochs : Z) (freeze : bool) (unfreeze_at_epoch : Z) :
  let st := fit run_epoch m h epochs freeze unfreeze_at_epoch in
  let n := length (epoch_log st) in
  length (history st) = length h + n ∧
  (∀ c, c ∈ checkpoints st →
     (1 ≤ ckpt_epoch c ≤ Z.of_nat n)%Z ∧
     ckpt_history c = take (length h + Z.to_nat (ckpt_epoch c)) (history st) ∧
     val_acc <$> last (ckpt_history c) = Some (ckpt_val_acc c)) ∧
  (if decide (n = 0) then checkpoints st = [] ∧ best_val_loss st = None
   else ∃ c b, last (checkpoints st) = Some c ∧
               best_val_loss st = Some b ∧
               val_loss <$> last (ckpt_history c) = Some b ∧
               ∀ x, x ∈ run_losses run_epoch st → (b ≤ x)%Qc).
Proof.
  intros st n.
  destruct (fit_establishes_checkpoints run_epoch freeze unfreeze_at_epoch m h epochs)
    as (fl & (Hlen & Hfiles & Hlast) & (_ & Hbest & _)).
  fold st in Hlen, Hfiles, Hlast, Hbest. fold n in Hlen, Hfiles.
  rewrite length_seqZ, Nat2Z.id in Hlen.
  assert (length (run_losses run_epoch st) = n) as Hll
    by (unfold run_losses; by rewrite length_fmap).
  split_and!.
  - done.
  - intros c Hc. destruct (Hfiles c Hc) as (k & Hk & Hh & Hacc).
    apply lookup_seqZ in Hk as [Hk Hlt]. rewrite Hk.
    split_and!; [lia..| |done].
    rewrite Hh. f_equal. lia.
  - destruct (best_val_loss st) as [b|].
    + destruct Hbest as [Hb Hmin]. destruct Hlast as (c & Hc & Hv).
      rewrite decide_False.
      * by exists c, b.
      * intros Hn. rewrite Hn in Hll.
        destruct (run_losses run_epoch st); [by apply elem_of_nil in Hb|done].
    + rewrite decide_True; [done|]. by rewrite <- Hll, Hbest.
Qed.

(** ** Monitoring: reports, logs and round trips *)

Lemma Qc_of_nat_S (n : nat) : Qc_of_nat (S n) = (1 + Qc_of_nat n)%Qc.
Proof.
  unfold Qc_of_nat. rewrite Nat2Z.inj_succ, <- Z.add_1_l, Z2Qc_inj_add.
  by rewrite Z2Qc_inj_1.
Qed.

Lemma Qc_of_nat_0 : Qc_of_nat 0 = 0%Qc.
Proof. apply Z2Qc_inj_0. Qed.

Lemma Qc_of_nat_S_pos (n : nat) : (0 < Qc_of_nat (S n))%Qc.
Proof.
  unfold Qc_of_nat.
  pose proof (proj1 (Z2Qc_inj_lt 0 (Z.of_nat (S n)))) as H.
  rewrite Z2Qc_inj_0 in H. apply H. lia.
Qed.

Lemma Qcsum_lower (xs : list Qc) (lo : Qc) :
  (∀ c, c ∈ xs → (lo ≤ c)%Qc) → (lo * Qc_of_nat (length xs) ≤ Qcsum xs)%Qc.
Proof.
  induction xs as [|x xs IH]; intros H; cbn [length Qcsum foldr].
  { rewrite Qc_of_nat_0, Qcmult_0_r. apply Qcle_refl. }
  rewrite Qc_of_nat_S, Qcmult_plus_distr_r, Qcmult_1_r.
  apply Qcplus_le_compat.
  - apply H, list_elem_of_here.
  - apply IH. intros c Hc. by apply H, list_elem_of_further.
Qed.

Lemma Qcsum_upper (xs : list Qc) (hi : Qc) :
  (∀ c, c ∈ xs → (c ≤ hi)%Qc) → (Qcsum xs ≤ hi * Qc_of_nat (length xs))%Qc.
Proof.
  induction xs as [|x xs IH]; intros H; cbn [length Qcsum foldr].
  { rewrite Qc_of_nat_0, Qcmult_0_r. apply Qcle_refl. }
  rewrite Qc_of_nat_S, Qcmult_plus_distr_r, Qcmult_1_r.
  apply Qcplus_le_compat.
  - apply H, list_elem_of_here.
  - apply IH. intros c Hc. by apply H, list_elem_of_further.
Qed.

(** The mean of a non-empty list lies between its minimum and maximum. *)
Lemma mean_between_min_and_max (x : Qc) (r : list Qc) :
  let mean := (Qcsum (x :: r) / Qc_of_nat (length (x :: r)))%Qc in
  (foldl np.Qcmin x r ≤ mean)%Qc ∧ (mean ≤ foldl np.Qcmax x r)%Qc.
Proof.
  destruct (foldl_Qcmin_spec r x) as [_ Hmin].
  destruct (foldl_Qcmax_spec r x) as [_ Hmax].
  cbn [length]. pose proof (Qc_of_nat_S_pos (length r)) as Hpos.
  assert (Qc_of_nat (S (length r)) ≠ 0%Qc) as Hne
    by (intros E; rewrite E in Hpos; by apply Qclt_not_eq in Hpos).
  split.
  - apply Qcmult_lt_0_le_reg_r with (Qc_of_nat (S (length r))); [done|].
    rewrite (Qcmult_comm (_ / _)), Qcmult_div_r by done.
    by apply (Qcsum_lower (x :: r)).
  - apply Qcmult_lt_0_le_reg_r with (Qc_of_nat (S (length r))); [done|].
    rewrite (Qcmult_comm (_ / _)), Qcmult_div_r by done.
    by apply (Qcsum_upper (x :: r)).
Qed.

Lemma asarray_numeric (vs : list value) :
  Forall (λ v, ∃ q, as_float v = Ok q) vs →
  ∃ xs, np.asarray vs = Ok xs ∧ length xs = length vs.
Proof.
  unfold np.asarray. induction 1 as [|v vs [q Hq] _ (xs & IH & Hlen)].
  - by exists [].
  - exists (q :: xs). cbn [mapM]. rewrite Hq. cbn [mbind result_bind].
    rewrite IH. cbn [mbind result_bind]. split; [done|]. simpl. by rewrite Hlen.
Qed.

(** The three reductions of [get_performance_report] over the values of one
    metric: 0 when no snapshot carries it, otherwise the mean, the largest
    and the smallest, the mean between the two. *)
Lemma metric_reductions (vs : list value) :
  Forall (λ v, ∃ q, as_float v = Ok q) vs →
  ∃ mean hi lo,
    (if vs is [] then Ok 0%Qc else np.mean vs) = Ok mean ∧
    (if vs is [] then Ok 0%Qc else np.max vs) = Ok hi ∧
    (if vs is [] then Ok 0%Qc else np.min vs) = Ok lo ∧
    (lo ≤ mean)%Qc ∧ (mean ≤ hi)%Qc ∧
    (vs = [] → mean = 0%Qc ∧ hi = 0%Qc ∧ lo = 0%Qc).
Proof.
  intros Hnum. destruct vs as [|v vs'].
  { exists 0%Qc, 0%Qc, 0%Qc. split_and!; try done; apply Qcle_refl. }
  destruct (asarray_numeric _ Hnum) as (xs & Hxs & Hlen).
  destruct xs as [|x r]; [done|].
  destruct (mean_between_min_and_max x r) as [Hlo Hhi].
  unfold np.mean, np.max, np.min. rewrite Hxs. cbn [mbind result_bind].
  eexists _, _, _. split_and!; try done.
Qed.

(** X10. On a monitor without snapshots [get_performance_report] returns
    the empty dict. Otherwise, the accuracies and losses present being
    numbers, it returns the full dict: the number of snapshots, the last
    snapshot recorded, and for each of accuracy and loss the mean, maximum
    and minimum over the snapshots that carry the metric, with the minimum
    at most the mean and the mean at most the maximum, all three 0 when no
    snapshot carries it. *)
Theorem performance_report_bounds (mon : ModelMonitor) :
  let history := metrics_history mon in
  Forall (λ v, ∃ q, as_float v = Ok q) (metric_values "accuracy" history) →
  Forall (λ v, ∃ q, as_float v = Ok q) (metric_values "loss" history) →
  if decide (history = []) then get_performance_report mon = Ok EmptyReport
  else
    ∃ r, get_performance_report mon = Ok (FullReport r) ∧
      total_evaluations r = length history ∧
      last_evaluation r = last history ∧
      (min_accuracy r ≤ average_accuracy r)%Qc ∧
      (average_accuracy r ≤ max_accuracy r)%Qc ∧
      (min_loss r ≤ average_loss r)%Qc ∧
      (average_loss r ≤ max_loss r)%Qc ∧
      (metric_values "accuracy" history = [] →
       average_accuracy r = 0%Qc ∧ max_accuracy r = 0%Qc ∧ min_accuracy r = 0%Qc) ∧
      (metric_values "loss" history = [] →
       average_loss r = 0%Qc ∧ max_loss r = 0%Qc ∧ min_loss r = 0%Qc).
Proof.
  intros history Hacc Hloss. unfold get_performance_report. fold history.
  destruct (decide (history = [])) as [->|Hne]; [done|].
  destruct history as [|m0 history'] eqn:Eh; [done|]. rewrite <- Eh in *.
  destruct (metric_reductions _ Hacc) as (ma & ha & la & -> & -> & -> & H1 & H2 & H3).
  destruct (metric_reductions _ Hloss) as (ml & hl & ll & -> & -> & -> & H4 & H5 & H6).
  cbn [mbind result_bind]. eexists. split; [done|].
  cbn [total_evaluations last_evaluation min_accuracy average_accuracy
    max_accuracy min_loss average_loss max_loss].
  split_and!; done.
Qed.

Lemma record_all_snoc (mon : ModelMonitor) (fs : files)
    (calls : list (string * Dict * option string))
    (call : string * Dict * option string) :
  record_all mon fs (calls ++ [call]) =
  record_metrics (record_all mon fs calls).1 (record_all mon fs calls).2
    call.1.1 call.1.2 call.2.
Proof. unfold record_all. by rewrite foldl_app. Qed.

(** X11. Through any sequence of [record_metrics] calls the monitor keeps
    its directory, its history grows by one entry per call, in call order,
    and the same entries are appended to the metrics log file, whose earlier
    lines stay; each entry holds the metrics of its call and, unless the
    metrics have keys of those names, the time stamp and the model version
    ([None] when none was given). *)
Theorem record_metrics_appends (mon : ModelMonitor) (fs : files)
    (calls : list (string * Dict * option string)) :
  let mon' := (record_all mon fs calls).1 in
  let fs' := (record_all mon fs calls).2 in
  let log := pathlib.join (metrics_dir mon) "metrics_log.jsonl" in
  metrics_dir mon' = metrics_dir mon ∧
  metrics_history mon' = metrics_history mon ++ (metric_entry <$> calls) ∧
  fs' !! log =
    (if calls is [] then fs !! log
     else Some (default [] (fs !! log) ++ (metric_entry <$> calls))) ∧
  (∀ path, path ≠ log → fs' !! path = fs !! path) ∧
  Forall (λ call,
            (∀ k v, call.1.2 !! k = Some v → metric_entry call !! k = Some v) ∧
            (call.1.2 !! "timestamp" = None →
             metric_entry call !! "timestamp" = Some (VStr call.1.1)) ∧
            (call.1.2 !! "model_version" = None →
             metric_entry call !! "model_version" =
               Some (from_option VStr VNone call.2))) calls.
Proof.
  simpl. split_and!.
  - induction calls as [|call calls IH] using rev_ind; [done|].
    by rewrite record_all_snoc.
  - induction calls as [|call calls IH] using rev_ind.
    { simpl. by rewrite app_nil_r. }
    rewrite record_all_snoc. unfold record_metrics. cbn [metrics_history fst].
    rewrite IH, fmap_app, app_assoc. done.
  - induction calls as [|call calls IH] using rev_ind; [done|].
    assert (metrics_dir (record_all mon fs calls).1 = metrics_dir mon) as Hdir.
    { clear IH. induction calls as [|c cs IHc] using rev_ind; [done|].
      by rewrite record_all_snoc. }
    rewrite record_all_snoc. unfold record_metrics, append_line. cbn [snd].
    rewrite Hdir, lookup_insert_eq, IH, fmap_app.
    destruct calls as [|c0 calls']; simpl.
    + by destruct (fs !! _).
    + by rewrite <- app_assoc.
  - intros path Hne.
    induction calls as [|call calls IH] using rev_ind; [done|].
    assert (metrics_dir (record_all mon fs calls).1 = metrics_dir mon) as Hdir.
    { clear IH. induction calls as [|c cs IHc] using rev_ind; [done|].
      by rewrite record_all_snoc. }
    rewrite record_all_snoc. unfold record_metrics, append_line. cbn [snd].
    rewrite Hdir, lookup_insert_ne by done. done.
  - apply Forall_forall. intros [[ts metrics] version] _.
    unfold metric_entry. cbn [fst snd]. split_and!.
    + intros k v Hk. by apply lookup_union_Some_l.
    + intros Hnone. rewrite lookup_union_r by done. by rewrite lookup_insert_eq.
    + intros Hnone. rewrite lookup_union_r by done.
      rewrite lookup_insert_ne by done. by rewrite lookup_insert_eq.
Qed.

Lemma asarray_counts (counts : list Z) :
  np.asarray ((λ c, VNum (Qc_of_Z c)) <$> counts) = Ok (Qc_of_Z <$> counts).
Proof.
  rewrite (list_fmap_compose Qc_of_Z VNum). apply asarray_VNum.
Qed.

Lemma Qcdiv_lt_iff (a b c : Qc) :
  (0 < b)%Qc → ((a / b < c)%Qc ↔ (a < c * b)%Qc).
Proof.
  intros Hb.
  assert (b ≠ 0%Qc) as Hne by (intros E; rewrite E in Hb; by apply Qclt_not_eq in Hb).
  assert ((a / b) * b = a)%Qc as Hab by (by rewrite Qcmult_comm, Qcmult_div_r).
  split.
  - intros H. rewrite <- Hab. by apply Qcmult_lt_compat_r.
  - intros H. apply Qcnot_le_lt. intros Hle.
    apply (Qcmult_le_compat_r _ _ b) in Hle; [|by apply Qclt_le_weak].
    rewrite Hab in Hle. by apply Qcle_not_lt in Hle.
Qed.

Section DataQualityProperties.

Variable sqrt : Qc → Qc.

(** X12. [check_dataset_balance] raises a [ValueError] on an empty dict of
    counts. On any other it returns: the total is the sum of the counts;
    with [lo] and [hi] a smallest and a largest count, the ratio is infinite
    exactly when [lo] is not positive, and the data set is reported balanced
    exactly when [lo] is positive and [hi] is below three times [lo]. *)
Theorem dataset_balance_by_extreme_counts (species_counts : gmap string Z) :
  if decide (species_counts = ∅)
  then ∃ msg, check_dataset_balance sqrt species_counts = Raise (ValueError msg)
  else
    ∃ r lo hi,
      check_dataset_balance sqrt species_counts = Ok r ∧
      (∃ s, species_counts !! s = Some lo) ∧
      (∃ s, species_counts !! s = Some hi) ∧
      (∀ s c, species_counts !! s = Some c → (lo ≤ c ≤ hi)%Z) ∧
      total_samples r = foldr Z.add 0%Z (map_to_list species_counts).*2 ∧
      num_species r = size species_counts ∧
      (imbalance_ratio r = None ↔ (lo ≤ 0)%Z) ∧
      (is_balanced r = true ↔ (0 < lo ∧ hi < 3 * lo)%Z).
Proof.
  unfold check_dataset_balance.
  destruct (decide (species_counts = ∅)) as [->|Hne].
  { rewrite map_to_list_empty. by eexists. }
  assert (∀ c, c ∈ (map_to_list species_counts).*2 ↔
               ∃ s, species_counts !! s = Some c) as Hin.
  { intros c. rewrite list_elem_of_fmap. split.
    - intros ([s c'] & -> & H). exists s. by apply elem_of_map_to_list.
    - intros [s H]. exists (s, c). split; [done|]. by apply elem_of_map_to_list. }
  remember ((map_to_list species_counts).*2) as counts eqn:Ec.
  assert (counts ≠ []) as Hcounts.
  { rewrite Ec. intros E. apply fmap_nil_inv in E.
    by apply map_to_list_empty_iff in E. }
  clear Ec. destruct counts as [|c0 cs]; [done|]. clear Hcounts.
  unfold np.mean, np.std, np.min, np.max. rewrite asarray_counts.
  rewrite fmap_cons. cbn [mbind result_bind].
  destruct (foldl_Qcmin_spec (Qc_of_Z <$> cs) (Qc_of_Z c0)) as [Hlo1 Hlo2].
  destruct (foldl_Qcmax_spec (Qc_of_Z <$> cs) (Qc_of_Z c0)) as [Hhi1 Hhi2].
  rewrite <- fmap_cons in Hlo1, Hlo2, Hhi1, Hhi2.
  apply list_elem_of_fmap in Hlo1 as (lo & Elo & Hlo1).
  apply list_elem_of_fmap in Hhi1 as (hi & Ehi & Hhi1).
  rewrite Elo, Ehi in *.
  assert (∀ c, c ∈ c0 :: cs → (lo ≤ c ≤ hi)%Z) as Hbounds.
  { intros c Hc. split; apply Z2Qc_inj_le; [apply Hlo2|apply Hhi2];
      by apply list_elem_of_fmap_2. }
  assert (∀ s c, species_counts !! s = Some c → (lo ≤ c ≤ hi)%Z) as Hb.
  { intros s c Hs. apply Hbounds, Hin. by exists s. }
  destruct (Qcltb 0 (Qc_of_Z lo)) eqn:Hpos.
  - apply Qcltb_lt in Hpos as Hpos'.
    assert (0 < lo)%Z as Hlo.
    { apply Z2Qc_inj_lt. by rewrite Z2Qc_inj_0. }
    unfold truediv.
    assert (Qceqb (Qc_of_Z lo) 0 = false) as ->.
    { destruct (Qceqb (Qc_of_Z lo) 0) eqn:E; [|done].
      apply Qceqb_eq in E. rewrite E in Hpos'. by apply Qclt_not_eq in Hpos'. }
    cbn [mbind result_bind].
    eexists _, lo, hi. split; [done|].
    cbn [total_samples num_species imbalance_ratio is_balanced].
    split_and!; try done; try (by apply Hin).
    + split; [done|lia].
    + rewrite Qcltb_lt, (Qcdiv_lt_iff _ _ _ Hpos'), <- Z2Qc_inj_mul,
        <- Z2Qc_inj_lt. lia.
  - apply Qcltb_ge in Hpos.
    assert (lo ≤ 0)%Z as Hlo.
    { apply Z2Qc_inj_le. by rewrite Z2Qc_inj_0. }
    cbn [mbind result_bind].
    eexists _, lo, hi. split; [done|].
    cbn [total_samples num_species imbalance_ratio is_balanced].
    split_and!; try done; try (by apply Hin).
    split; [done|lia].
Qed.

(** The statistics of a session file agree with the statistics of the list
    of records it holds. *)
Lemma session_statistics_of_records (lg : PredictionLogger) (fs : files)
    (results : list Dict) :
  fs !! current_session_path lg = Some results →
  Forall (λ p, has_error p ∨ is_prediction_result p) results →
  ∃ st s,
    get_prediction_statistics results = Ok st ∧
    get_session_statistics sqrt lg fs None = Ok (StatsDict s) ∧
    session_total_predictions s = length results ∧
    session_successful_predictions s = Z.of_nat (total_predictions st) ∧
    Z.of_nat (session_errors s) = errors st ∧
    session_species_distribution s = species_distribution st ∧
    session_average_confidence s = average_confidence st.
Proof.
  intros Hfile Hwf.
  destruct (get_prediction_statistics_accounts results Hwf)
    as (st & Hst & Htotal & Herr & Hhist & Havg).
  assert (Forall (λ p, has_error p ∨ is_logged_prediction p) results) as Hwf'.
  { eapply Forall_impl; [exact Hwf|]. intros p [?|(s & c & b & ? & ? & _)];
      [by left|right; by exists s, c]. }
  unfold get_session_statistics, session_log_file.
  rewrite Hfile.
  destruct (foldlM_session_step_ok results ∅ [] 0 Hwf') as (m' & -> & Hm').
  cbn [mbind result_bind]. rewrite app_nil_l.
  pose proof (filter_has_error_length results) as Hlen.
  remember (filter (λ p, ¬ has_error p) results) as ok eqn:Eok. clear Eok.
  assert (m' = species_distribution st) as Hsame.
  { apply map_eq. intros s. rewrite Hm', Hhist, lookup_empty. simpl.
    by destruct (decide (count_label s ok = 0)). }
  destruct (confidence_of <$> ok) as [|c0 cs] eqn:Ec.
  - apply fmap_nil_inv in Ec. subst ok. simpl.
    exists st. eexists. split; [done|]. split; [done|].
    cbn [session_total_predictions session_successful_predictions
      session_errors session_species_distribution session_average_confidence].
    simpl in Htotal, Havg, Hlen.
    split_and!; [done|lia|lia|done|by rewrite Havg].
  - assert (length ok = S (length cs)) as Hlok.
    { apply (f_equal length) in Ec. rewrite length_fmap in Ec. done. }
    unfold np.mean, np.min, np.max, np.std.
    rewrite (asarray_VNum (c0 :: cs)).
    cbn [fmap list_fmap mbind result_bind].
    exists st. eexists. split; [done|]. split; [done|].
    cbn [session_total_predictions session_successful_predictions
      session_errors session_species_distribution session_average_confidence].
    split_and!; [done|lia|lia|done|].
    rewrite Havg, decide_False by lia. cbn [length]. by rewrite Hlok.
Qed.

(** X13. Logging the results of a batch and reading the session back: for a
    non-empty list of results, each an error record or shaped like a
    prediction, logged by [log_batch] into a session whose file did not
    exist, [get_session_statistics] returns the full dict and agrees with
    [get_prediction_statistics] on the same list: the same number of
    successful results and of errors, the same label histogram and the same
    mean confidence; its total is the number of results. *)
Theorem session_statistics_agree_with_batch_statistics
    (lg : PredictionLogger) (fs : files) (results : list Dict) :
  results ≠ [] →
  fs !! current_session_path lg = None →
  Forall (λ p, has_error p ∨ is_prediction_result p) results →
  ∃ st s,
    get_prediction_statistics results = Ok st ∧
    get_session_statistics sqrt lg (log_batch lg fs results) None =
      Ok (StatsDict s) ∧
    session_total_predictions s = length results ∧
    session_successful_predictions s = Z.of_nat (total_predictions st) ∧
    Z.of_nat (session_errors s) = errors st ∧
    session_species_distribution s = species_distribution st ∧
    session_average_confidence s = average_confidence st.
Proof.
  intros Hne Hfile Hwf. apply session_statistics_of_records; [|done].
  rewrite log_batch_lookup, Hfile. by destruct results.
Qed.

End DataQualityProperties.

(** ** Loader: the species mapping *)

Lemma ascii_compare_lt_trans (a b c : Ascii.ascii) :
  Ascii.compare a b = Lt → Ascii.compare b c = Lt → Ascii.compare a c = Lt.
Proof.
  unfold Ascii.compare. rewrite !N.compare_lt_iff. lia.
Qed.

Lemma string_compare_lt_trans (a b c : string) :
  String.compare a b = Lt → String.compare b c = Lt → String.compare a c = Lt.
Proof.
  revert b c. induction a as [|x a IH]; intros [|y b] [|z c]; simpl; try done.
  destruct (Ascii.compare x y) eqn:Hxy; try done;
    destruct (Ascii.compare y z) eqn:Hyz; try done.
  - apply Ascii.compare_eq_iff in Hxy, Hyz. subst.
    rewrite (proj2 (N.compare_eq_iff _ _) eq_refl : Ascii.compare z z = Eq).
    apply IH.
  - apply Ascii.compare_eq_iff in Hxy. subst. by rewrite Hyz.
  - apply Ascii.compare_eq_iff in Hyz. subst. by rewrite Hxy.
  - by rewrite (ascii_compare_lt_trans _ _ _ Hxy Hyz).
Qed.

Lemma string_compare_refl (a : string) : String.compare a a = Eq.
Proof.
  induction a as [|x a IH]; [done|]. simpl.
  by rewrite (proj2 (N.compare_eq_iff _ _) eq_refl : Ascii.compare x x = Eq).
Qed.

Lemma string_leb_trans (a b c : string) :
  String.leb a b = true → String.leb b c = true → String.leb a c = true.
Proof.
  unfold String.leb.
  destruct (String.compare a b) eqn:Hab; try done;
    destruct (String.compare b c) eqn:Hbc; try done; intros _ _.
  - apply String.compare_eq_iff in Hab, Hbc. subst. by rewrite string_compare_refl.
  - apply String.compare_eq_iff in Hab. subst. by rewrite Hbc.
  - apply String.compare_eq_iff in Hbc. subst. by rewrite Hab.
  - by rewrite (string_compare_lt_trans _ _ _ Hab Hbc).
Qed.

Definition string_le (a b : string) : Prop := String.leb a b = true.

Global Instance string_le_trans : Transitive string_le.
Proof. intros a b c. apply string_leb_trans. Qed.

Global Instance string_le_antisym : AntiSymm (=) string_le.
Proof. intros a b. apply String.leb_antisym. Qed.

Lemma insert_sorted_perm (s : string) (l : list string) :
  insert_sorted s l ≡ₚ s :: l.
Proof.
  induction l as [|t l IH]; simpl; [done|].
  destruct (String.leb s t); [done|]. rewrite IH. apply Permutation_swap.
Qed.

Lemma sorted_perm (l : list string) : sorted l ≡ₚ l.
Proof.
  induction l as [|s l IH]; simpl; [done|]. by rewrite insert_sorted_perm, IH.
Qed.

Lemma insert_sorted_sorted (s : string) (l : list string) :
  StronglySorted string_le l → StronglySorted string_le (insert_sorted s l).
Proof.
  induction l as [|t l IH]; intros Hs; simpl.
  { repeat constructor. }
  apply StronglySorted_inv in Hs as [Hs Ht].
  destruct (String.leb s t) eqn:Hst.
  - constructor; [by constructor|]. constructor; [done|].
    eapply Forall_impl; [exact Ht|]. intros u Hu. by trans t.
  - constructor; [by apply IH|]. rewrite insert_sorted_perm.
    constructor; [|done]. destruct (String.leb_total s t) as [H|H]; [congruence|done].
Qed.

Lemma sorted_sorted (l : list string) : StronglySorted string_le (sorted l).
Proof.
  induction l as [|s l IH]; simpl; [constructor|]. by apply insert_sorted_sorted.
Qed.

Lemma sorted_of_permutation (l1 l2 : list string) :
  l1 ≡ₚ l2 → sorted l1 = sorted l2.
Proof.
  intros H. apply (StronglySorted_unique string_le); try apply sorted_sorted.
  by rewrite !sorted_perm.
Qed.

Lemma lookup_snoc_ne (keys : list string) (k s : string) (i : nat) :
  k ≠ s → (keys ++ [k]) !! i = Some s ↔ keys !! i = Some s.
Proof.
  intros Hne. destruct (decide (i < length keys)) as [Hi|Hi].
  - by rewrite lookup_app_l.
  - rewrite lookup_app_r by lia. rewrite (lookup_ge_None_2 keys) by lia.
    destruct (i - length keys) as [|j]; simpl; [|done].
    split; [congruence|done].
Qed.

(** Entering indexed keys one after the other: a key ends with the index
    of its last occurrence. *)
Lemma enumerate_lookup (keys : list string) (m : gmap string nat) (n : nat)
    (s : string) (v : nat) :
  (foldl (λ m p, <[p.2 := p.1]> m) m (zip (seq n (length keys)) keys)) !! s = Some v ↔
  (∃ i, v = n + i ∧ keys !! i = Some s ∧ ∀ j, keys !! j = Some s → j ≤ i) ∨
  ((s ∉ keys) ∧ m !! s = Some v).
Proof.
  revert m n v. induction keys as [|k keys IH] using rev_ind; intros m n v.
  { simpl. split.
    - intros H. right. split; [apply not_elem_of_nil|done].
    - intros [(i & _ & H & _)|[_ H]]; [done|done]. }
  rewrite length_app, Nat.add_1_r, seq_S, zip_with_app by (by rewrite length_seq).
  rewrite foldl_app. simpl.
  destruct (decide (k = s)) as [->|Hne].
  - rewrite lookup_insert_eq. split.
    + intros [= <-]. left. exists (length keys). split; [done|]. split.
      * by rewrite lookup_app_r, Nat.sub_diag by lia.
      * intros j Hj%lookup_lt_Some. rewrite length_app in Hj. simpl in Hj. lia.
    + intros [(i & -> & Hi & Hlast)|[Hnot _]].
      * pose proof (lookup_lt_Some _ _ _ Hi) as Hlt.
        rewrite length_app in Hlt. simpl in Hlt.
        assert (length keys ≤ i) as Hge.
        { apply Hlast. by rewrite lookup_app_r, Nat.sub_diag by lia. }
        f_equal. lia.
      * exfalso. apply Hnot. apply elem_of_app. right. by apply list_elem_of_singleton.
  - rewrite lookup_insert_ne by done. rewrite IH. split.
    + intros [(i & -> & Hi & Hlast)|[Hnot Hm]].
      * left. exists i. split; [done|]. split; [by apply lookup_snoc_ne|].
        intros j Hj. apply Hlast. by apply (lookup_snoc_ne keys k s j).
      * right. split; [|done]. rewrite elem_of_app, list_elem_of_singleton.
        intros [H|H]; [done|congruence].
    + intros [(i & -> & Hi & Hlast)|[Hnot Hm]].
      * left. exists i. split; [done|]. split; [by apply (lookup_snoc_ne keys k s i)|].
        intros j Hj. apply Hlast. by apply lookup_snoc_ne.
      * right. split; [|done]. intros H. apply Hnot, elem_of_app. by left.
Qed.

Lemma create_species_mapping_lookup (species_list : list string) (s : string)
    (i : nat) :
  create_species_mapping species_list !! s = Some i ↔
  sorted species_list !! i = Some s ∧
  ∀ j, sorted species_list !! j = Some s → j ≤ i.
Proof.
  unfold create_species_mapping.
  rewrite <- (Permutation_length (sorted_perm species_list)).
  rewrite enumerate_lookup. simpl. split.
  - intros [(j & -> & H)|[_ H]]; [done|done].
  - intros H. left. by exists i.
Qed.

Lemma strongly_sorted_lookup (l : list string) :
  StronglySorted string_le l →
  ∀ i j s t, l !! i = Some s → l !! j = Some t → i < j → string_le s t.
Proof.
  induction 1 as [|k l Hs IH Hall]; intros i j s t Hi Hj Hij; [done|].
  destruct j as [|j]; [lia|]. simpl in Hj. destruct i as [|i].
  - simpl in Hi. injection Hi as ->.
    rewrite Forall_forall in Hall. apply Hall. by eapply list_elem_of_lookup_2.
  - simpl in Hi. apply (IH i j); [done|done|lia].
Qed.

Lemma sorted_lookup_le (l : list string) (i j : nat) (s t : string) :
  sorted l !! i = Some s → sorted l !! j = Some t → i ≤ j → string_le s t.
Proof.
  intros Hi Hj Hij. destruct (decide (i = j)) as [->|Hne].
  - assert (s = t) as -> by congruence. unfold string_le, String.leb.
    by rewrite string_compare_refl.
  - apply (strongly_sorted_lookup (sorted l) (sorted_sorted l) i j); [done|done|lia].
Qed.

(** X14 (loader.py, [DataLoader.create_species_mapping]): the mapping's keys
    are exactly the listed species and the order in which they are listed
    does not matter; a species is mapped to the position of its last
    occurrence in the sorted list, so the indices lie below the length of
    the list and grow with the names; for a list without repetitions they
    are exactly [0 .. n-1], each used once, while a repeated name leaves the
    index before its last occurrence unused. *)
Theorem species_mapping_indexes_sorted_names (species_list : list string) :
  let m := create_species_mapping species_list in
  (∀ s, is_Some (m !! s) ↔ s ∈ species_list) ∧
  (∀ l', species_list ≡ₚ l' → create_species_mapping l' = m) ∧
  (∀ s i, m !! s = Some i ↔
     sorted species_list !! i = Some s ∧
     ∀ j, sorted species_list !! j = Some s → j ≤ i) ∧
  (∀ s i, m !! s = Some i → i < length species_list) ∧
  (∀ s t i j, m !! s = Some i → m !! t = Some j → i ≤ j → String.leb s t = true) ∧
  (∀ s t i, m !! s = Some i → m !! t = Some i → s = t) ∧
  (NoDup species_list →
     ∀ i, i < length species_list → ∃ s, m !! s = Some i) ∧
  (∀ s i, sorted species_list !! i = Some s →
     sorted species_list !! S i = Some s → ∀ t, m !! t ≠ Some i).
Proof.
  intros m. subst m. split_and!.
  - intros s. rewrite <- (sorted_perm species_list) at 2. split.
    + intros [i [H _]%create_species_mapping_lookup]. by eapply list_elem_of_lookup_2.
    + intros Hin.
      assert (∃ i, sorted species_list !! i = Some s ∧
                   ∀ j, sorted species_list !! j = Some s → j ≤ i) as (i & Hi).
      { revert Hin. generalize (sorted species_list). intros l.
        induction l as [|k l IH] using rev_ind; [by intros ?%elem_of_nil|].
        intros Hin. destruct (decide (k = s)) as [->|Hne].
        - exists (length l). split; [by rewrite lookup_app_r, Nat.sub_diag by lia|].
          intros j Hj%lookup_lt_Some. rewrite length_app in Hj. simpl in Hj. lia.
        - apply elem_of_app in Hin as [Hin|Hin%list_elem_of_singleton]; [|congruence].
          destruct (IH Hin) as (i & Hi & Hlast). exists i.
          split; [by apply lookup_snoc_ne|].
          intros j Hj. apply Hlast. by apply (lookup_snoc_ne l k s j). }
      exists i. by apply create_species_mapping_lookup.
  - intros l' Hp. unfold create_species_mapping.
    by rewrite (sorted_of_permutation _ _ Hp), (Permutation_length Hp).
  - intros s i. apply create_species_mapping_lookup.
  - intros s i [H _]%create_species_mapping_lookup.
    apply lookup_lt_Some in H. by rewrite (Permutation_length (sorted_perm _)) in H.
  - intros s t i j [Hi _]%create_species_mapping_lookup
      [Hj _]%create_species_mapping_lookup Hij.
    by apply (sorted_lookup_le species_list i j).
  - intros s t i [Hi _]%create_species_mapping_lookup
      [Hj _]%create_species_mapping_lookup. congruence.
  - intros Hnd i Hi.
    rewrite <- (Permutation_length (sorted_perm species_list)) in Hi.
    destruct (lookup_lt_is_Some_2 _ _ Hi) as [s Hs]. exists s.
    apply create_species_mapping_lookup. split; [done|].
    intros j Hj. rewrite <- (sorted_perm species_list) in Hnd.
    by rewrite (NoDup_lookup _ _ _ _ Hnd Hj Hs).
  - intros s i Hi HSi t [Ht Hlast]%create_species_mapping_lookup.
    assert (t = s) as -> by congruence. specialize (Hlast _ HSi). lia.
Qed.

(** ** The inference script *)

Lemma log_batch_insert (lg : PredictionLogger) (fs : files) (ps : list Dict) :
  log_batch lg fs ps =
  if ps is [] then fs
  else <[current_session_path lg :=
           default [] (fs !! current_session_path lg) ++ ps]> fs.
Proof.
  induction ps as [|p ps IH] using rev_ind; [done|].
  rewrite log_batch_snoc, IH. unfold log_prediction, append_line.
  destruct ps as [|p' ps'].
  - by destruct (fs !! current_session_path lg).
  - rewrite lookup_insert_eq, insert_insert_eq. cbn [default id app].
    by rewrite <- app_assoc.
Qed.

Section InferenceScriptProperties.

Context {Model Weights Image Tensor : Type}.
Variable torch_load : string → result Weights.
Variable load_state_dict : Model → Weights → result Model.
Variable image_open : string → result Image.
Variable transforms : Image → result Tensor.
Variable forward : Model → Tensor → result (list Qc).
Variable softmax : list Qc → list Qc.
Variable isoformat_now : nat → string.
Variable sqrt : Qc → Qc.

Local Abbreviation Predictor := (@Predictor Model).
Local Abbreviation predict_loaded :=
  (predict_loaded image_open transforms forward softmax).
Local Abbreviation predict_single :=
  (predict_single image_open transforms forward softmax isoformat_now).
Local Abbreviation predict_batch :=
  (predict_batch image_open transforms forward softmax isoformat_now).
Local Abbreviation batch_item :=
  (batch_item image_open transforms forward softmax isoformat_now).
Local Abbreviation load_model := (load_model torch_load load_state_dict).
Local Abbreviation main :=
  (main torch_load load_state_dict image_open transforms forward softmax
     isoformat_now sqrt).

(** The four keys [main] prints of a single prediction are there. *)
Lemma predict_loaded_printed_keys (p : Predictor) (ts image_path : string)
    (d : Dict) :
  predict_loaded p ts image_path = Ok d →
  ∃ v, (_ ← getitem d "predicted_species";
        _ ← getitem d "confidence";
        _ ← getitem d "is_confident";
        getitem d "top_predictions") = Ok v.
Proof.
  unfold predict_loaded.
  destruct (image_open image_path) as [image|]; [|done]; cbn [mbind result_bind].
  destruct (transforms image) as [tensor|]; [|done]; cbn [mbind result_bind].
  destruct (model p) as [m|]; [|done]; cbn [mbind result_bind].
  destruct (forward m tensor) as [outputs|]; [|done]; cbn [mbind result_bind].
  destruct (torch.max (softmax outputs)) as [[conf idx]|]; [|done];
    cbn [mbind result_bind].
  destruct (species_of p idx) as [label|]; [|done]; cbn [mbind result_bind].
  destruct (torch.topk _ _) as [top|]; [|done]; cbn [mbind result_bind].
  destruct (mapM _ top) as [tl|]; [|done]; cbn [mbind result_bind].
  intros [= <-]. by eexists.
Qed.

Lemma predict_batch_well_formed (p : Predictor) (clock : nat)
    (image_paths : list string) :
  Forall (λ d, has_error d ∨ is_prediction_result d)
    (predict_batch p clock image_paths).1.1.
Proof.
  eapply (Forall2_Forall_r (λ _ d, has_error d ∨ is_prediction_result d)).
  - apply (predict_batch_Forall2 image_open transforms forward softmax
             isoformat_now).
    intros p' clock' image_path.
    destruct (batch_item_shape image_open transforms forward softmax
                isoformat_now p' clock' image_path) as [_ [[H _]|[_ H]]]; auto.
  - apply Forall_true. auto.
Qed.

(** X15 (predict.py, [main] with [--directory]): a failure to load the model
    ends the script before anything is logged. Otherwise, in a session
    whose file did not exist: when the listing of the directory is empty,
    nothing is written and the script ends in [KeyError: 'total_predictions']
    at its closing report; when it is not, the script ends normally, the
    session file holds one record per listed image, and the reported total is
    the number of listed images, split into successes and errors. *)
Theorem main_directory_mode (args : Args) (species_mapping : gmap Z string)
    (model_class : nat → result Model) (clock : nat) (timestamp : string)
    (content : list pathlib.entry) (fs : files) (directory : string) :
  given (arg_image args) = None →
  given (arg_directory args) = Some directory →
  fs !! current_session_path (new_logger (arg_log_dir args) timestamp) = None →
  let session := current_session_path (new_logger (arg_log_dir args) timestamp) in
  let paths := image_paths directory content (arg_recursive args) in
  let out := main args species_mapping model_class clock timestamp content fs in
  match (load_model
           (init (arg_model_path args) species_mapping
              (arg_confidence_threshold args)) model_class).1 with
  | Raise e => out = (Raise e, fs)
  | Ok _ =>
      if decide (paths = []) then out = (Raise (KeyError "total_predictions"), fs)
      else ∃ s results,
        out = (Ok (Some s), <[session := results]> fs) ∧
        length results = length paths ∧
        session_total_predictions s = length paths ∧
        (session_successful_predictions s + Z.of_nat (session_errors s))%Z =
          Z.of_nat (length paths) ∧
        (0 ≤ session_successful_predictions s)%Z
  end.
Proof.
  intros Himage Hdir Hfile session paths out. subst out session. unfold main.
  destruct (load_model _ model_class) as [[[]|e] p] eqn:Hload;
    cbn [fst]; cbv beta iota zeta; [|done].
  rewrite Himage, Hdir. unfold predict_directory. fold paths.
  pose proof (predict_batch_length image_open transforms forward softmax
                isoformat_now p clock paths) as Hlen.
  pose proof (predict_batch_well_formed p clock paths) as Hwf.
  destruct (predict_batch p clock paths) as [[results p'] clock'].
  simpl in Hlen, Hwf.
  destruct (get_prediction_statistics_accounts results Hwf)
    as (st & Hst & Htotal & Herr & _).
  rewrite Hst. rewrite log_batch_insert. rewrite Hfile.
  destruct (decide (paths = [])) as [Hnil|Hne].
  - rewrite Hnil in Hlen. destruct results; [|done].
    unfold session_report, get_session_statistics, session_log_file.
    by rewrite Hfile.
  - destruct results as [|r0 results'] eqn:Er.
    { destruct paths; [done|]. simpl in Hlen. lia. }
    rewrite <- Er in *. cbn [default]. rewrite app_nil_l.
    destruct (session_statistics_of_records sqrt
                (new_logger (arg_log_dir args) timestamp)
                (<[current_session_path (new_logger (arg_log_dir args) timestamp) :=
                    results]> fs) results)
      as (st' & s & Hst' & Hs & Htot & Hsucc & Herrs & _).
    { apply lookup_insert_eq. }
    { done. }
    assert (st' = st) as -> by congruence.
    unfold session_report. rewrite Hs. cbn [mbind result_bind].
    exists s, results. split; [done|].
    pose proof (filter_has_error_length results). 
    split_and!; try done; lia.
Qed.

(** X16 (predict.py, [main] with [--image]): a failure to load the model or
    to predict ends the script with that failure and nothing logged.
    Otherwise, in a session whose file did not exist, the script ends
    normally, the session file holds the one prediction, and the closing
    report counts one prediction, no error, with the confidence of the
    prediction as mean. *)
Theorem main_image_mode (args : Args) (species_mapping : gmap Z string)
    (model_class : nat → result Model) (clock : nat) (timestamp : string)
    (content : list pathlib.entry) (fs : files) (image : string) :
  given (arg_image args) = Some image →
  fs !! current_session_path (new_logger (arg_log_dir args) timestamp) = None →
  let session := current_session_path (new_logger (arg_log_dir args) timestamp) in
  let out := main args species_mapping model_class clock timestamp content fs in
  let loaded :=
    load_model
      (init (arg_model_path args) species_mapping (arg_confidence_threshold args))
      model_class in
  match loaded.1 with
  | Raise e => out = (Raise e, fs)
  | Ok _ =>
      match (predict_single loaded.2 clock image).1.1 with
      | Raise e => out = (Raise e, fs)
      | Ok d => ∃ s,
          out = (Ok (Some s), <[session := [d]]> fs) ∧
          session_total_predictions s = 1 ∧
          session_successful_predictions s = 1%Z ∧
          session_errors s = 0 ∧
          session_average_confidence s = confidence_of d
      end
  end.
Proof.
  intros Himage Hfile session out loaded. subst out loaded session.
  unfold main.
  destruct (load_model _ model_class) as [[[]|e] p] eqn:Hload;
    cbn [fst snd]; cbv beta iota zeta; [|done].
  rewrite Himage.
  destruct (predict_single p clock image) as [[[d|e] p'] clock'] eqn:Hp;
    cbn [fst snd]; cbv beta iota zeta; [|done].
  assert (∃ ts, predict_loaded p ts image = Ok d) as [ts Hd].
  { revert Hp. unfold predict_single. destruct (negb (is_loaded p)); [done|].
    destruct (predict_loaded p (isoformat_now clock) image) eqn:E; [|done].
    intros [= <- _ _]. by eexists. }
  destruct (predict_loaded_printed_keys p ts image d Hd) as [v ->].
  apply (predict_loaded_shape image_open transforms forward softmax) in Hd
    as (_ & Herr & Hres).
  unfold log_prediction, append_line. rewrite Hfile.
  cbn [default]. rewrite app_nil_l.
  assert (¬ has_error d) as Hno.
  { unfold has_error. rewrite Herr. by intros [? ?]. }
  assert (Forall (λ p, has_error p ∨ is_prediction_result p) [d]) as Hwf.
  { constructor; [by right|constructor]. }
  destruct (get_prediction_statistics_accounts [d] Hwf)
    as (st & Hst & Htotal & Herrs & _ & Havg).
  destruct (session_statistics_of_records sqrt
              (new_logger (arg_log_dir args) timestamp)
              (<[current_session_path (new_logger (arg_log_dir args) timestamp) :=
                  [d]]> fs) [d])
    as (st' & s & Hst' & Hs & Htot & Hsucc & Herrs' & _ & Havg').
  { apply lookup_insert_eq. }
  { done. }
  assert (st' = st) as -> by congruence.
  rewrite filter_cons, decide_True in Htotal, Havg by done.
  rewrite filter_cons, decide_False in Herrs by tauto.
  simpl in Htotal, Havg, Herrs.
  unfold session_report. rewrite Hs. cbn [mbind result_bind].
  exists s. split; [done|]. split_and!; [done|lia|lia|].
  rewrite Havg', Havg. unfold Qcsum. simpl.
  rewrite Qcplus_0_r. rewrite Qc_of_nat_S, Qc_of_nat_0, Qcplus_0_r.
  by field.
Qed.

End InferenceScriptProperties.

(** ** The prediction service *)

Section ServiceProperties.

Context {Model Image Tensor : Type}.
Variable image_open : string → result Image.
Variable transforms : Image → result Tensor.
Variable forward : Model → Tensor → result (list Qc).
Variable softmax : list Qc → list Qc.
Variable isoformat_now : nat → string.
Variable MODEL_VERSION : string.
Variable Path_suffix : string → string.
Variable NamedTemporaryFile : string → result string.

Local Abbreviation Predictor := (@Predictor Model).
Local Abbreviation predict_loaded :=
  (predict_loaded image_open transforms forward softmax).
Local Abbreviation predict_single :=
  (predict_single image_open transforms forward softmax isoformat_now).
Local Abbreviation health_check := (@app.health_check Model MODEL_VERSION).
Local Abbreviation response_body := (app.response_body MODEL_VERSION).
Local Abbreviation predict :=
  (app.predict image_open transforms forward softmax isoformat_now
     MODEL_VERSION Path_suffix NamedTemporaryFile).

Lemma handle_status (e : exn) :
  ∃ detail, app.handle e = app.HTTPException 400 detail ∨
            app.handle e = app.HTTPException 500 detail.
Proof.
  unfold app.handle. destruct (_ || _); eexists; [by left|by right].
Qed.

(** The body of a successful prediction can always be built. *)
Lemma response_body_of_prediction (p : Predictor) (ts image_path : string)
    (d : Dict) :
  predict_loaded p ts image_path = Ok d →
  ∃ body, response_body d = Ok body ∧
    (∀ key, key ∈ ["predicted_species"; "confidence"; "is_confident";
                   "top_predictions"; "timestamp"] →
       body !! key = d !! key) ∧
    body !! "model_version" = Some (VStr MODEL_VERSION) ∧
    body !! "image_path" = None ∧
    body !! "error" = None.
Proof.
  unfold predict_loaded.
  destruct (image_open image_path) as [image|]; [|done]; cbn [mbind result_bind].
  destruct (transforms image) as [tensor|]; [|done]; cbn [mbind result_bind].
  destruct (model p) as [m|]; [|done]; cbn [mbind result_bind].
  destruct (forward m tensor) as [outputs|]; [|done]; cbn [mbind result_bind].
  destruct (torch.max (softmax outputs)) as [[conf idx]|]; [|done];
    cbn [mbind result_bind].
  destruct (species_of p idx) as [label|]; [|done]; cbn [mbind result_bind].
  destruct (torch.topk _ _) as [top|]; [|done]; cbn [mbind result_bind].
  destruct (mapM _ top) as [tl|]; [|done]; cbn [mbind result_bind].
  intros [= <-]. eexists. split; [done|]. split_and!; [|done..].
  intros key Hkey. repeat (apply elem_of_cons in Hkey as [->|Hkey]; [done|]).
  by apply elem_of_nil in Hkey.
Qed.

Lemma predict_single_outcome (p : Predictor) (clock : nat) (path : string) :
  is_loaded p = true →
  match (predict_single p clock path).1.1 with
  | Ok d => predict_loaded p (isoformat_now clock) path = Ok d ∧
            (predict_single p clock path).2 = S clock
  | Raise e => predict_loaded p (isoformat_now clock) path = Raise e ∧
               (predict_single p clock path).2 = clock
  end.
Proof.
  intros Hl. unfold predict_single. rewrite Hl. simpl.
  by destruct (predict_loaded p (isoformat_now clock) path).
Qed.

(** X17 (app.py, [health_check] and [predict]): the health report calls the
    service healthy exactly when it reports the model as loaded, counts the
    species of the predictor (none without predictor), and reports the model
    as not loaded exactly when [/predict] answers 503, for any upload; a 503
    touches neither the temporary directory nor the clock. *)
Theorem health_agrees_with_predict (predictor : option Predictor)
    (now start_time : Qc) (clock : nat) (image : app.UploadFile)
    (tmp : gmap string string) :
  let h := health_check predictor now start_time in
  let out := predict predictor clock image tmp in
  (app.status h = "healthy" ↔ app.model_loaded h = true) ∧
  (app.status h = "unhealthy" ↔ app.model_loaded h = false) ∧
  (app.model_loaded h = true ↔ ∃ p, predictor = Some p ∧ is_loaded p = true) ∧
  (app.model_loaded h = false ↔
     ∃ detail, out.1.1 = app.HTTPException 503 detail) ∧
  (app.model_loaded h = false → out.1.2 = tmp ∧ out.2 = clock).
Proof.
  intros h out. subst h out. unfold app.health_check, app.predict.
  cbn [app.status app.model_loaded].
  destruct predictor as [p|]; [destruct (is_loaded p) eqn:Hl|]; cbn [negb].
  - split_and!; try done.
    + split; [by exists p|done].
    + split; [done|]. intros [detail H]. revert H.
      destruct (app.content_type image) as [ct|]; [|done].
      destruct (_ && _); [|done].
      destruct (NamedTemporaryFile _) as [path|e].
      * destruct (app.read image); [|done].
        destruct (predict_single p clock path) as [[r ?] ?].
        destruct (r ≫= response_body); [done|]. simpl.
        by destruct (handle_status e) as [? [-> | ->]].
      * simpl. by destruct (handle_status e) as [? [-> | ->]].
  - split_and!; try done.
    + split; [done|]. intros (p' & [= <-] & ?). congruence.
    + split; [by eexists|done].
  - split_and!; try done.
    + split; [done|]. by intros (p' & ? & ?).
    + split; [by eexists|done].
Qed.

(** X18 (app.py, [predict]): the temporary file. Unless the request ends in
    an [UnboundLocalError], no file of the temporary directory is added or
    changed by it. It ends in that error exactly when the model is loaded,
    the content type is accepted, the temporary file is created and reading
    the upload fails; the created file is then left behind, empty. *)
Theorem predict_cleans_up_unless_read_fails (predictor : option Predictor)
    (clock : nat) (image : app.UploadFile) (tmp : gmap string string) :
  let out := predict predictor clock image tmp in
  let suffix :=
    match app.filename image with
    | Some f => if String.eqb f EmptyString then ".jpg" else Path_suffix f
    | None => ".jpg"
    end in
  ((∀ v, out.1.1 ≠ app.UnboundLocalError v) → out.1.2 ⊆ tmp) ∧
  (∀ v, out.1.1 = app.UnboundLocalError v ↔
     v = "temp_file_path" ∧
     ∃ p ct temp_file_path e,
       predictor = Some p ∧ is_loaded p = true ∧
       app.content_type image = Some ct ∧ String.prefix "image/" ct = true ∧
       NamedTemporaryFile suffix = Ok temp_file_path ∧
       app.read image = Raise e ∧
       out.1.2 = <[temp_file_path := EmptyString]> tmp).
Proof.
  intros out suffix. subst out suffix. unfold app.predict.
  assert (∀ (path c : string), delete path (<[path := c]> (<[path := EmptyString]> tmp)) ⊆ tmp)
    as Hsub.
  { intros path c. rewrite insert_insert_eq, delete_insert_eq.
    apply delete_subseteq. }
  destruct predictor as [p|]; [destruct (is_loaded p) eqn:Hl|]; cbn [negb].
  - destruct (app.content_type image) as [ct|] eqn:Hct.
    2:{ split; [done|]. intros v. split; [done|].
        by intros (_ & ? & ? & ? & ? & ? & ? & ? & _). }
    destruct (negb (String.eqb ct EmptyString)) eqn:Hne;
      destruct (String.prefix "image/" ct) eqn:Hpre; cbn [andb].
    2,3,4: split; [done|]; intros v; split; [done|];
      intros (_ & ? & ? & ? & ? & ? & ? & [= <-] & ? & _); try congruence.
    2:{ apply negb_false_iff, String.eqb_eq in Hne. by subst. }
    destruct (NamedTemporaryFile _) as [path|e] eqn:Htmp.
    2:{ cbn [fst snd]. split; [done|]. intros v. split.
        - by destruct (handle_status e) as [? [-> | ->]].
        - by intros (_ & ? & ? & ? & ? & ? & ? & ? & ? & ? & _). }
    destruct (app.read image) as [content|e] eqn:Hread.
    + destruct (predict_single p clock path) as [[r ?] ?].
      destruct (r ≫= response_body) as [body|e]; cbn [fst snd].
      * split; [intros _; apply Hsub|]. intros v. split; [done|].
        by intros (_ & ? & ? & ? & ? & ? & ? & ? & ? & ? & ? & _).
      * split; [intros _; apply Hsub|]. intros v. split.
        -- by destruct (handle_status e) as [? [-> | ->]].
        -- by intros (_ & ? & ? & ? & ? & ? & ? & ? & ? & ? & ? & _).
    + cbn [fst snd]. split; [intros H; by destruct (H "temp_file_path")|].
      intros v. split.
      * intros [= <-]. split; [done|]. by exists p, ct, path, e.
      * by intros [-> _].
  - split; [done|]. intros v. split; [done|].
    intros (_ & ? & ? & ? & ? & [= <-] & ? & _). congruence.
  - split; [done|]. intros v. split; [done|].
    by intros (_ & ? & ? & ? & ? & ? & _).
Qed.

(** X19 (app.py, [predict], with predictor.py [predict_single]): an accepted
    upload to a loaded model whose temporary file is written. When
    [predict_single] returns, the request returns a body that takes the five
    prediction fields from its dict, adds the model version and carries
    neither the path of the temporary file nor an error. When it raises,
    the request ends with status 400 if the lower-cased message mentions
    [cannot identify image file] or [corrupted], and with status 500
    otherwise, the message being part of the detail. In both cases the
    temporary file is gone. *)
Theorem predict_answers_from_predict_single (p : Predictor) (clock : nat)
    (image : app.UploadFile) (tmp : gmap string string)
    (ct temp_file_path content : string) :
  is_loaded p = true →
  app.content_type image = Some ct →
  String.prefix "image/" ct = true →
  NamedTemporaryFile
    (match app.filename image with
     | Some f => if String.eqb f EmptyString then ".jpg" else Path_suffix f
     | None => ".jpg"
     end) = Ok temp_file_path →
  app.read image = Ok content →
  let out := predict (Some p) clock image tmp in
  out.1.2 = delete temp_file_path tmp ∧
  match (predict_single p clock temp_file_path).1.1 with
  | Ok d =>
      ∃ body, out.1.1 = app.Return body ∧ out.2 = S clock ∧
        (∀ key, key ∈ ["predicted_species"; "confidence"; "is_confident";
                       "top_predictions"; "timestamp"] →
           body !! key = d !! key) ∧
        body !! "model_version" = Some (VStr MODEL_VERSION) ∧
        body !! "image_path" = None ∧
        body !! "error" = None
  | Raise e =>
      out.2 = clock ∧
      out.1.1 =
        (if app.str_contains "cannot identify image file" (pathlib.lower (str e)) ||
            app.str_contains "corrupted" (pathlib.lower (str e))
         then app.HTTPException 400 ("Invalid or corrupted image file: " +:+ str e)
         else app.HTTPException 500 ("Model inference failed: " +:+ str e))
  end.
Proof.
  intros Hl Hct Hpre Htmp Hread out. subst out. unfold app.predict.
  rewrite Hl, Hct, Hpre, Htmp, Hread. cbn [negb].
  assert (negb (String.eqb ct EmptyString) = true) as ->.
  { apply negb_true_iff, String.eqb_neq. intros ->. done. }
  cbn [andb].
  pose proof (predict_single_outcome p clock temp_file_path Hl) as Hout.
  destruct (predict_single p clock temp_file_path) as [[[d|e] p'] clock'];
    cbn [fst snd] in Hout |- *; destruct Hout as [Hd ->].
  - destruct (response_body_of_prediction _ _ _ _ Hd)
      as (body & Hb & Hkeys & Hversion & Hpath & Herror).
    cbn [mbind result_bind]. rewrite Hb. cbn [fst snd].
    split; [by rewrite insert_insert_eq, delete_insert_eq|].
    by exists body.
  - cbn [mbind result_bind fst snd].
    split; [by rewrite insert_insert_eq, delete_insert_eq|done].
Qed.

End ServiceProperties.
